(** * xk6-subcommand-explore: catalog retrieval, version resolution,
      filtering and sorting

    A shallow embedding of [catalog.go], [cmd.go], [options.go] and the
    classification helpers of [output.go], followed by the properties of
    the specification that concern them.

    Go values are modelled as follows.
    - [string] is [String.string]; Go compares strings byte by byte, which
      is [String.compare] (characters compared by their code).
    - a slice is a [list]; [len(s) > 0] is "the list is not empty".
    - [map[string]*extension] is a [gmap string _]; the order in which
      [range] visits a map is left open (class [MapRange]).
    - the packages the program imports ([sort], [semver], [net/http],
      [encoding/json]) are interfaces, given as type classes; where a
      property of a package is needed, it is stated in a class of laws
      next to the interface, and an implementation that has it is given
      further down. *)

From Stdlib Require Import String Ascii ZArith NArith List Bool.
From Stdlib Require Import Sorting.Sorted Sorting.Permutation.
From stdpp Require Import base option list gmap strings sorting.

Local Open Scope string_scope.
Local Open Scope list_scope.

(* ===================================================================== *)
(** * Part I: definitions                                                 *)
(* ===================================================================== *)

(** ** Go strings: the comparison operators *)

Module GoString.

(** [a != b] *)
Definition neq (a b : string) : bool := negb (String.eqb a b).

(** [a < b] *)
Definition lt (a b : string) : bool := String.ltb a b.

(** [a > b] *)
Definition gt (a b : string) : bool := String.ltb b a.

End GoString.

(** ** catalog.go: the descriptor *)

(** [type extension struct]. The field [Module] of the source is named
    [Module_] here, [Module] being a reserved word. *)
Record extension : Type := mkExtension {
  Module_ : string;
  Tier : string;
  Description : string;
  Latest : string;
  Versions : list string;
  Imports : list string;
  Outputs : list string;
  Subcommands : list string
}.

Global Instance extension_eq_dec : EqDecision extension.
Proof. solve_decision. Defined.

(** [ext.Latest = v], the assignment through the pointer. *)
Definition set_Latest (v : string) (ext : extension) : extension :=
  {| Module_ := Module_ ext; Tier := Tier ext; Description := Description ext;
     Latest := v; Versions := Versions ext; Imports := Imports ext;
     Outputs := Outputs ext; Subcommands := Subcommands ext |}.

(** ** The semantic-version package, as [findLatest] uses it *)

(** [github.com/Masterminds/semver/v3]: [NewVersion] parses a string and
    fails on a malformed one ([None] stands for the non-nil error, whose
    value [findLatest] never reads), [GreaterThan] compares two parsed
    versions and [Original] gives back the text that was parsed. *)
Class Semver : Type := {
  Version : Type;
  NewVersion : string → option Version;
  GreaterThan : Version → Version → bool;
  Original : Version → string
}.

(** What the package documents: [Original] "returns the original value
    passed in to be parsed", and [GreaterThan] is the strict part of the
    precedence order of Semantic Versioning. *)
Class SemverLaws (S : Semver) : Prop := {
  Original_NewVersion s v : NewVersion s = Some v → Original v = s;
  GreaterThan_irrefl v : GreaterThan v v = false;
  GreaterThan_trans a b c :
    GreaterThan a b = true → GreaterThan b c = true → GreaterThan a c = true
}.

(** ** catalog.go: findLatest *)

Section FindLatest.
Context `{S : Semver}.

(** The body of [for _, v := range versions[1:]]: a malformed entry is
    skipped by [continue], a well-formed one replaces [latest] when it
    is strictly greater. *)
Definition findLatest_step (latest : Version) (v : string) : Version :=
  match NewVersion v with
  | None => latest
  | Some ver => if GreaterThan ver latest then ver else latest
  end.

Definition findLatest (versions : list string) : string :=
  match versions with
  | [] => ""
  | v0 :: rest =>
      match NewVersion v0 with
      | None => ""
      | Some latest => Original (foldl findLatest_step latest rest)
      end
  end.

End FindLatest.

(** ** output.go: the display classification *)

(** [extensionType]: the first populated facet wins. (An older revision
    of the file returns the labels ["js"], ["out"], ["sub"] and [""], which
    stand in the same order.) *)
Definition extensionType (e : extension) : string :=
  if bool_decide (0 < length (Imports e)) then "JavaScript"
  else if bool_decide (0 < length (Outputs e)) then "Output"
  else if bool_decide (0 < length (Subcommands e)) then "Subcommand"
  else "".

(** [extensionTier]: everything that is not ["official"] is shown as
    community. *)
Definition extensionTier (e : extension) : string :=
  if Tier e =? "official" then "Official" else "Community".

(** ** options.go: the two filters *)

Definition kind : Type := string.
Definition tier : Type := string.

Definition kindJavaScript : kind := "javascript".
Definition kindOutput : kind := "output".
Definition kindSubcommand : kind := "subcommand".
Definition tierOfficial : tier := "official".
Definition tierCommunity : tier := "community".

(** [func (k *kind) filter(ext *extension) bool]. The receiver is a
    pointer: [None] is the nil receiver. The [switch] selects the facet;
    its [default] branch returns [true]. *)
Definition kind_filter (k : option kind) (ext : extension) : bool :=
  match k with
  | None => true
  | Some k =>
      if k =? kindJavaScript then bool_decide (0 < length (Imports ext))
      else if k =? kindOutput then bool_decide (0 < length (Outputs ext))
      else if k =? kindSubcommand then bool_decide (0 < length (Subcommands ext))
      else true
  end.

(** [func (t *tier) filter(ext *extension) bool]. *)
Definition tier_filter (t : option tier) (ext : extension) : bool :=
  match t with
  | None => true
  | Some t =>
      if t =? tierOfficial then Tier ext =? "official"
      else if t =? tierCommunity then Tier ext =? "community"
      else true
  end.

(** ** Ranging over a map *)

(** [for k, v := range m] visits every entry of [m] once, in an order the
    language leaves unspecified. *)
Class MapRange : Type :=
  map_range : ∀ {V : Type}, gmap string V → list (string * V).

Class MapRangeLaws (R : MapRange) : Prop :=
  map_range_perm : ∀ (V : Type) (m : gmap string V), map_range m ≡ₚ map_to_list m.

(** ** cmd.go: filterExtensions *)

Section FilterExtensions.
Context `{R : MapRange}.

(** One iteration of the loop. [kind.filter(ext)] and [tier.filter(ext)]
    are called on the addressable parameters, so the receivers are never
    nil. *)
Definition filterExtensions_step (k : kind) (t : tier)
    (filtered : list extension) (kv : string * extension) : list extension :=
  let ext := kv.2 in
  if Module_ ext =? "go.k6.io/k6" then filtered
  else if kind_filter (Some k) ext && tier_filter (Some t) ext
       then filtered ++ [ext]
       else filtered.

Definition filterExtensions (catalog : gmap string extension)
    (k : kind) (t : tier) : list extension :=
  foldl (filterExtensions_step k t) [] (map_range catalog).

End FilterExtensions.

(** ** The sort package *)

(** [sort.Slice(x, less)]. The slice is sorted in place; the model returns
    the slice as it is after the call. [less] is given on elements: the
    closure of the source reads [extensions[i]] and [extensions[j]]. *)
Class SortSlice : Type :=
  sort_Slice : ∀ {A : Type}, (A → A → bool) → list A → list A.

(** The requirement that package [sort] puts on [less]: a transitive
    ordering, in which elements that are not [less] either way count as
    equal. *)
Record StrictWeakOrder {A : Type} (less : A → A → bool) : Prop := {
  swo_irrefl x : less x x = false;
  swo_trans x y z : less x y = true → less y z = true → less x z = true;
  swo_equiv_trans x y z : less x y = false → less y z = false → less x z = false
}.

(** [not_after less x y]: [y] need not come before [x]. *)
Definition not_after {A : Type} (less : A → A → bool) : relation A :=
  λ x y, less y x = false.

(** What [sort.Slice] promises: the elements are rearranged, never added
    or dropped, and no element is followed by one that is [less]. Nothing
    is promised on the order of equal elements. *)
Class SortSliceLaws (S : SortSlice) : Prop := {
  sort_Slice_perm (A : Type) (less : A → A → bool) (l : list A) :
    sort_Slice less l ≡ₚ l;
  sort_Slice_sorted (A : Type) (less : A → A → bool) (l : list A) :
    StrictWeakOrder less → StronglySorted (not_after less) (sort_Slice less l)
}.

(** ** cmd.go: sortExtensions *)

(** The closure passed to [sort.Slice]. *)
Definition sortExtensions_less (ei ej : extension) : bool :=
  if GoString.neq (Tier ei) (Tier ej) then GoString.gt (Tier ei) (Tier ej)
  else
    let typeI := extensionType ei in
    let typeJ := extensionType ej in
    if GoString.neq typeI typeJ then GoString.lt typeI typeJ
    else GoString.lt (Module_ ei) (Module_ ej).

Definition sortExtensions `{S : SortSlice} (extensions : list extension)
    : list extension :=
  sort_Slice sortExtensions_less extensions.

(** ** Errors *)

(** The error values the program builds: [errors.New(text)] and the
    wrapper that [fmt.Errorf] returns for a format with one [%w] verb.
    Errors coming out of [net/http] and [encoding/json] are values of the
    same type that the program only passes on. *)
Inductive error : Type :=
  | errors_New (text : string)
  | fmt_wrapError (msg : string) (err : error).

Global Instance error_eq_dec : EqDecision error.
Proof. solve_decision. Defined.

(** [err.Error()] *)
Definition Error (e : error) : string :=
  match e with
  | errors_New text => text
  | fmt_wrapError msg _ => msg
  end.

(** [errors.Is(err, target)]: [target] is looked for along the chain of
    [Unwrap]. Go compares error values by identity; here two errors made
    of the same text are the same value. *)
Fixpoint errors_Is (err target : error) : bool :=
  bool_decide (err = target) ||
  match err with
  | errors_New _ => false
  | fmt_wrapError _ inner => errors_Is inner target
  end.

(** [fmt.Errorf("%w: %s", err, s)] *)
Definition fmt_Errorf_w_s (err : error) (s : string) : error :=
  fmt_wrapError (Error err +:+ ": " +:+ s) err.

Definition errFetchExtensionCatalog : error :=
  errors_New "failed to fetch extension catalog".

(** ** The network and the decoder *)

(** [time.Duration] counts nanoseconds. *)
Definition time_Second : Z := 1000000000.
Definition httpRequestTimeout : Z := 10 * time_Second.

Definition defaultExtensionCatalogURL : string :=
  "https://registry.k6.io/catalog.json".

Definition http_MethodGet : string := "GET".
Definition http_StatusOK : Z := 200.

Record Client : Type := { Timeout : Z }.

Record Request (Ctx : Type) : Type := mkRequest {
  req_ctx : Ctx;
  req_Method : string;
  req_URL : string;
  req_Header : gmap string string
}.
Arguments mkRequest {Ctx}.
Arguments req_ctx {Ctx}.
Arguments req_Method {Ctx}.
Arguments req_URL {Ctx}.
Arguments req_Header {Ctx}.

(** [req.Header.Set(key, value)] *)
Definition Header_Set {Ctx : Type} (key value : string) (req : Request Ctx)
    : Request Ctx :=
  mkRequest (req_ctx req) (req_Method req) (req_URL req)
            (<[key := value]> (req_Header req)).

Record Response : Type := mkResponse {
  StatusCode : Z;
  Status : string;
  Body : string
}.

(** What [getExtensionCatalog] calls in [net/http] and [encoding/json].
    Each call either fails with an error ([inl]) or gives its result
    ([inr]). A cancelled context, a refused connection and an expired
    timeout are failures of [Client_Do].

    [json_Decode] is [json.NewDecoder(body).Decode(&catalog)] followed by
    reading [catalog], a [map[string]*extension]: the map may be left nil
    ([None]) and a pointer stored in it may be nil ([Some None] at its
    key). *)
Class NetEnv : Type := {
  context_Context : Type;
  http_NewRequestWithContext :
    context_Context → string → string → error + Request context_Context;
  Client_Do : Client → Request context_Context → error + Response;
  json_Decode : string → error + option (gmap string (option extension))
}.

(** A call of a Go function either returns or panics. *)
Inductive outcome (A : Type) : Type :=
  | Returns (a : A)
  | Panics.
Arguments Returns {A}.
Arguments Panics {A}.

(** ** catalog.go: getExtensionCatalog *)

Section GetExtensionCatalog.
Context `{S : Semver} `{R : MapRange} `{N : NetEnv}.

(** One iteration of [for _, ext := range catalog]: the assignment
    [ext.Latest = findLatest(ext.Versions)] goes through the pointer
    [ext] and panics on a nil one. [annotated] collects, under its key,
    the descriptor each pointer visited so far now points to. *)
Definition updateLatest_step (annotated : outcome (gmap string extension))
    (kv : string * option extension) : outcome (gmap string extension) :=
  match annotated with
  | Panics => Panics
  | Returns c =>
      match kv.2 with
      | None => Panics
      | Some ext =>
          Returns (<[kv.1 := set_Latest (findLatest (Versions ext)) ext]> c)
      end
  end.

Definition updateLatest (catalog : gmap string (option extension))
    : outcome (gmap string extension) :=
  foldl updateLatest_step (Returns ∅) (map_range catalog).

(** The result pair is [(catalog, err)]; [None] is nil. *)
Definition getExtensionCatalog (ctx : context_Context) (url : string)
    : outcome (option (gmap string extension) * option error) :=
  let client := {| Timeout := httpRequestTimeout |} in
  match http_NewRequestWithContext ctx http_MethodGet url with
  | inl err => Returns (None, Some err)
  | inr req =>
      let req := Header_Set "User-Agent" "xk6-subcommand-explore" req in
      match Client_Do client req with
      | inl err => Returns (None, Some err)
      | inr resp =>
          if negb (StatusCode resp =? http_StatusOK)%Z
          then Returns (None, Some (fmt_Errorf_w_s errFetchExtensionCatalog (Status resp)))
          else
            match json_Decode (Body resp) with
            | inl err => Returns (None, Some err)
            | inr None => Returns (None, None)
            | inr (Some catalog) =>
                match updateLatest catalog with
                | Panics => Panics
                | Returns annotated => Returns (Some annotated, None)
                end
            end
      end
  end.

Definition getDefaultExtensionCatalog (ctx : context_Context)
    : outcome (option (gmap string extension) * option error) :=
  getExtensionCatalog ctx defaultExtensionCatalogURL.

End GetExtensionCatalog.

(** ** The order of the sorted list, key by key *)

(** [ordered_by_keys rank a b]: [a] may stand before [b] in a list ordered
    by tier descending, then by [rank] of the kind ascending, then by
    module ascending. *)
Definition ordered_by_keys (rank : extension → nat) : relation extension :=
  λ a b,
    GoString.gt (Tier a) (Tier b) = true ∨
    (Tier a = Tier b ∧
     (rank a < rank b ∨
      (rank a = rank b ∧ String.leb (Module_ a) (Module_ b) = true))).

(** The kind classification with the ranks the specification gives it:
    javascript < output < subcommand < none. *)
Definition spec_kind_rank (e : extension) : nat :=
  if bool_decide (0 < length (Imports e)) then 0
  else if bool_decide (0 < length (Outputs e)) then 1
  else if bool_decide (0 < length (Subcommands e)) then 2
  else 3.

(** The ranks that comparing the labels of [extensionType] as strings
    gives: the empty label of a descriptor without facet comes first. *)
Definition label_rank (e : extension) : nat :=
  if bool_decide (0 < length (Imports e)) then 1
  else if bool_decide (0 < length (Outputs e)) then 2
  else if bool_decide (0 < length (Subcommands e)) then 3
  else 0.

(** ** Implementations of the interfaces *)

(** *** Sorting by insertion

    One implementation of the interface, used where a sort has to be run.
    It is [insertionSort_func] of package [sort], which is stable; it is
    not [sort.Slice], which is free to order equal elements otherwise and
    does so on longer slices. No property below is drawn from it that the
    laws of the interface do not give.
<<
    for i := a + 1; i < b; i++ {
        for j := i; j > a && data.Less(j, j-1); j-- { data.Swap(j, j-1) }
    }
>>
    [data[a:i]] is kept with its last element first, so that the inner
    loop walks down the list. *)
Fixpoint insertionSort_insert {A : Type} (less : A → A → bool) (x : A)
    (sorted_rev : list A) : list A :=
  match sorted_rev with
  | [] => [x]
  | y :: rest =>
      if less x y then y :: insertionSort_insert less x rest
      else x :: sorted_rev
  end.

Definition insertionSort {A : Type} (less : A → A → bool) (data : list A)
    : list A :=
  reverse (foldl (λ sorted_rev x, insertionSort_insert less x sorted_rev) [] data).

Definition insertion_SortSlice : SortSlice := @insertionSort.

(** *** Ranging in the order of [map_to_list] *)

Definition listed_MapRange : MapRange := λ V m, map_to_list m.

(** *** A reference implementation of the version interface

    Versions in the syntax [v?MAJOR(.MINOR)?(.PATCH)?(-PRE)?(+META)?],
    compared by the precedence rules of Semantic Versioning 2.0.0: the
    numeric triple first; a version without pre-release above one with;
    pre-release identifiers compared left to right, numeric ones by value
    and below alphanumeric ones, a longer list above its prefix. Build
    metadata is ignored. It serves the examples; the theorems on
    [findLatest] hold for every implementation with the laws above. *)
Module SemverRef.

Record Version : Type := mkVersion {
  major : N;
  minor : N;
  patch : N;
  pre : string;
  metadata : string;
  original : string
}.

Definition maxUint64 : N := 18446744073709551615.

Definition is_digit (c : ascii) : bool :=
  ((48 <=? N_of_ascii c) && (N_of_ascii c <=? 57))%N.

Definition is_letter (c : ascii) : bool :=
  ((65 <=? N_of_ascii c) && (N_of_ascii c <=? 90) ||
   (97 <=? N_of_ascii c) && (N_of_ascii c <=? 122))%N.

Definition is_ident_char (c : ascii) : bool :=
  is_digit c || is_letter c || Ascii.eqb c "-".

(** The longest run of digits at the head of [s], read in base ten on
    top of [acc], and what follows it. *)
Fixpoint digits (s : string) (acc : N) : N * string :=
  match s with
  | String c s' =>
      if is_digit c then digits s' (10 * acc + (N_of_ascii c - 48))%N
      else (acc, s)
  | EmptyString => (acc, s)
  end.

(** [[0-9]+], as a 64-bit unsigned number. *)
Definition number (s : string) : option (N * string) :=
  match s with
  | String c _ =>
      if is_digit c then
        let '(n, rest) := digits s 0 in
        if (n <=? maxUint64)%N then Some (n, rest) else None
      else None
  | EmptyString => None
  end.

(** [(\.[0-9]+)?]: an absent segment counts as zero. *)
Definition segment (s : string) : option (N * string) :=
  match s with
  | String "." s' => number s'
  | _ => Some (0%N, s)
  end.

(** [[0-9A-Za-z-]+(\.[0-9A-Za-z-]+)*] *)
Fixpoint valid_idents_from (s : string) (nonempty : bool) : bool :=
  match s with
  | EmptyString => nonempty
  | String c s' =>
      if Ascii.eqb c "." then nonempty && valid_idents_from s' false
      else is_ident_char c && valid_idents_from s' true
  end.
Definition valid_idents (s : string) : bool := valid_idents_from s false.

(** [s] cut at its first ["+"]. *)
Fixpoint split_plus (s : string) : string * option string :=
  match s with
  | EmptyString => (EmptyString, None)
  | String c s' =>
      if Ascii.eqb c "+" then (EmptyString, Some s')
      else let '(a, b) := split_plus s' in (String c a, b)
  end.

Fixpoint all_digits (s : string) : bool :=
  match s with
  | EmptyString => true
  | String c s' => is_digit c && all_digits s'
  end.

(** [strings.Split(s, ".")] *)
Fixpoint split_dots (s : string) : list string :=
  match s with
  | EmptyString => [EmptyString]
  | String c s' =>
      if Ascii.eqb c "." then EmptyString :: split_dots s'
      else match split_dots s' with
           | p :: ps => String c p :: ps
           | [] => [String c EmptyString]
           end
  end.

(** A numeric identifier of more than one digit that starts with a
    zero. *)
Definition leading_zero (id : string) : bool :=
  match id with
  | String "0" (String _ _) => all_digits id
  | _ => false
  end.

(** The identifiers of a pre-release: numeric ones carry no leading
    zero. *)
Definition valid_prerelease (p : string) : bool :=
  valid_idents p && forallb (λ id, negb (leading_zero id)) (split_dots p).

(** What may follow the numbers: [(-PRE)?(+META)?] up to the end. *)
Definition suffix (s : string) : option (string * string) :=
  let '(before, meta) := split_plus s in
  let meta_ok :=
    match meta with None => true | Some m => valid_idents m end in
  let meta_text := default EmptyString meta in
  match before with
  | EmptyString => if meta_ok then Some (EmptyString, meta_text) else None
  | String "-" p =>
      if valid_prerelease p && meta_ok then Some (p, meta_text) else None
  | _ => None
  end.

Definition NewVersion (v : string) : option Version :=
  let s := match v with String "v" s' => s' | _ => v end in
  '(ma, s) ← number s;
  '(mi, s) ← segment s;
  '(pa, s) ← segment s;
  '(p, m) ← suffix s;
  Some (mkVersion ma mi pa p m v).

Definition Original (v : Version) : string := original v.

(** Pre-release identifiers. *)
Inductive ident : Type :=
  | Numeric (n : N)
  | Alphanumeric (s : string).

(** An identifier is numeric when it reads as a 64-bit unsigned number;
    a longer run of digits is compared as text. *)
Definition to_ident (s : string) : ident :=
  if all_digits s && negb (String.eqb s EmptyString)
     && (fst (digits s 0) <=? maxUint64)%N
  then Numeric (fst (digits s 0))
  else Alphanumeric s.

Definition idents (p : string) : list ident := to_ident <$> split_dots p.

Definition ident_compare (a b : ident) : comparison :=
  match a, b with
  | Numeric x, Numeric y => (x ?= y)%N
  | Numeric _, Alphanumeric _ => Lt
  | Alphanumeric _, Numeric _ => Gt
  | Alphanumeric x, Alphanumeric y => String.compare x y
  end.

Fixpoint idents_compare (l1 l2 : list ident) : comparison :=
  match l1, l2 with
  | [], [] => Eq
  | [], _ :: _ => Lt
  | _ :: _, [] => Gt
  | a :: l1', b :: l2' =>
      match ident_compare a b with
      | Eq => idents_compare l1' l2'
      | c => c
      end
  end.

(** The key a pre-release is compared by: [None] for a release, which
    stands above every pre-release. *)
Definition pre_key (p : string) : option (list ident) :=
  if String.eqb p EmptyString then None else Some (idents p).

Definition pre_compare (p q : option (list ident)) : comparison :=
  match p, q with
  | None, None => Eq
  | None, Some _ => Gt
  | Some _, None => Lt
  | Some l1, Some l2 => idents_compare l1 l2
  end.

Definition Compare (v o : Version) : comparison :=
  match (major v ?= major o)%N with
  | Eq =>
      match (minor v ?= minor o)%N with
      | Eq =>
          match (patch v ?= patch o)%N with
          | Eq => pre_compare (pre_key (pre v)) (pre_key (pre o))
          | c => c
          end
      | c => c
      end
  | c => c
  end.

Definition GreaterThan (v o : Version) : bool :=
  match Compare v o with Gt => true | _ => false end.

End SemverRef.

Definition ref_Semver : Semver :=
  {| Version := SemverRef.Version;
     NewVersion := SemverRef.NewVersion;
     GreaterThan := SemverRef.GreaterThan;
     Original := SemverRef.Original |}.

(** *** A simulated network

    A context is live or already cancelled; a world gives the response
    the server sends for a URL, if one is reachable there, and what the
    decoder makes of a body. The errors of the failing calls are
    stand-ins: [getExtensionCatalog] passes on whatever error it gets. *)
Module SimNet.

Inductive Ctx : Type := Background | Canceled.

Record world : Type := {
  routes : string → option Response;
  decode : string → error + option (gmap string (option extension))
}.

Definition NewRequest (ctx : Ctx) (method url : string)
    : error + Request Ctx :=
  if String.prefix "://" url
  then inl (errors_New "missing protocol scheme")
  else inr (mkRequest ctx method url ∅).

Definition Do (w : world) (c : Client) (req : Request Ctx)
    : error + Response :=
  match req_ctx req with
  | Canceled => inl (errors_New "context canceled")
  | Background =>
      match routes w (req_URL req) with
      | None => inl (errors_New "connection refused")
      | Some resp => inr resp
      end
  end.

Definition env (w : world) : NetEnv :=
  {| context_Context := Ctx;
     http_NewRequestWithContext := NewRequest;
     Client_Do := Do w;
     json_Decode := decode w |}.

(** The catalog of the end-to-end scenario of the specification, with a
    [latest] on the wire that is not the latest version. *)
Definition ext_a : extension :=
  mkExtension "x" "official" "" "v0.0.1" ["v1.0.0"; "v0.9.0"] ["k6/x/a"] [] [].
Definition ext_k6 : extension :=
  mkExtension "go.k6.io/k6" "official" "" "" [] [] [] [].

Definition sample_catalog : gmap string (option extension) :=
  <["a" := Some ext_a]> (<["b" := Some ext_k6]> ∅).

Definition sample_world : world :=
  {| routes url :=
       if url =? "http://registry/catalog.json"
       then Some (mkResponse 200 "200 OK" "catalog")
       else if url =? "http://registry/missing"
       then Some (mkResponse 404 "404 Not Found" "")
       else if url =? "http://registry/broken"
       then Some (mkResponse 200 "200 OK" "invalid json")
       else None;
     decode body :=
       if body =? "catalog" then inr (Some sample_catalog)
       else if body =? "null" then inr None
       else inl (errors_New "invalid character 'i' looking for beginning of value") |}.

End SimNet.

(** *** Sample descriptors

    The descriptors of the tests of [filterExtensions], and three more: one
    without tier, one without facet and one with every facet. *)
Module Sample.

Definition faker : extension :=
  mkExtension "github.com/grafana/xk6-faker" "official" "" "" []
              ["k6/x/faker"] [] [].
Definition prometheus : extension :=
  mkExtension "github.com/grafana/xk6-output-prometheus" "official" "" "" []
              [] ["prometheus"] [].
Definition dashboard : extension :=
  mkExtension "github.com/grafana/xk6-dashboard" "community" "" "" []
              [] [] ["dashboard"].
Definition k6 : extension :=
  mkExtension "go.k6.io/k6" "official" "" "" [] [] [] [].
Definition untiered : extension :=
  mkExtension "example.com/xk6-untiered" "" "" "" [] ["k6/x/untiered"] [] [].
Definition bare : extension :=
  mkExtension "example.com/xk6-bare" "official" "" "" [] [] [] [].
Definition all_facets : extension :=
  mkExtension "example.com/xk6-all" "community" "" "" []
              ["k6/x/all"] ["all"] ["all"].

Definition catalog : gmap string extension :=
  list_to_map [("k6", k6); ("xk6-faker", faker);
               ("xk6-output-prometheus", prometheus);
               ("xk6-dashboard", dashboard); ("xk6-untiered", untiered)].

End Sample.

(** ** Orders given by a three-valued comparison *)

(** A comparison that describes a total preorder: swapping the arguments
    swaps [Lt] and [Gt], and "not greater" is transitive. *)
Record CmpOrder {A : Type} (c : A → A → comparison) : Prop := {
  cmp_antisym x y : c y x = CompOpp (c x y);
  cmp_le_trans x y z : c x y ≠ Gt → c y z ≠ Gt → c x z ≠ Gt
}.

(** Comparison by [c1], ties broken by [c2]. *)
Definition cmp_lex {A : Type} (c1 c2 : A → A → comparison) (x y : A)
    : comparison :=
  match c1 x y with
  | Eq => c2 x y
  | r => r
  end.

Definition is_Lt (r : comparison) : bool :=
  match r with Lt => true | _ => false end.

Definition is_Gt (r : comparison) : bool :=
  match r with Gt => true | _ => false end.

(** [sortExtensions_less] as a comparison on the three keys. *)
Definition sortExtensions_cmp : extension → extension → comparison :=
  cmp_lex (λ a b, String.compare (Tier b) (Tier a))
    (cmp_lex (λ a b, String.compare (extensionType a) (extensionType b))
             (λ a b, String.compare (Module_ a) (Module_ b))).

(** ** options.go: the flag values *)

Definition errInvalidKind : error :=
  errors_New "invalid type: allowed values are javascript, output, subcommand".
Definition errInvalidTier : error :=
  errors_New "invalid tier: allowed values are official, community".

Definition kindValues : list string := [kindJavaScript; kindOutput; kindSubcommand].
Definition tierValues : list string := [tierOfficial; tierCommunity].

(** [func (k *kind) String() string] *)
Definition kind_String (k : option kind) : string :=
  match k with
  | None => ""
  | Some k => k
  end.

(** [func (k *kind) Set(s string) error]. The result is the value the
    receiver points to after the call, with the error returned. The
    assignment [*k = kind(s)] panics on a nil receiver; the [default]
    branch does not touch it. *)
Definition kind_Set (k : option kind) (s : string)
    : outcome (option kind * option error) :=
  if (s =? kindJavaScript) || (s =? kindOutput) || (s =? kindSubcommand)
  then match k with
       | None => Panics
       | Some _ => Returns (Some s, None)
       end
  else Returns (k, Some errInvalidKind).

(** [func (k *kind) Type() string] *)
Definition kind_Type (k : option kind) : string := "type".

(** [func (t *tier) String() string] *)
Definition tier_String (t : option tier) : string :=
  match t with
  | None => ""
  | Some t => t
  end.

(** [func (t *tier) Set(s string) error] *)
Definition tier_Set (t : option tier) (s : string)
    : outcome (option tier * option error) :=
  if (s =? tierOfficial) || (s =? tierCommunity)
  then match t with
       | None => Panics
       | Some _ => Returns (Some s, None)
       end
  else Returns (t, Some errInvalidTier).

(** [func (t *tier) Type() string] *)
Definition tier_Type (t : option tier) : string := "tier".

(** The condition under which the loop of [filterExtensions] appends the
    descriptor it visits. *)
Definition filterExtensions_keeps (k : kind) (t : tier) (ext : extension) : bool :=
  negb (Module_ ext =? "go.k6.io/k6") &&
  (kind_filter (Some k) ext && tier_filter (Some t) ext).

(** ** The version package: one more law *)

(** Precedence is a total preorder: versions that are not greater either
    way stand at the same place in it. *)
Class SemverWeakOrder (S : Semver) : Prop :=
  GreaterThan_equiv_trans : ∀ a b c : Version,
    GreaterThan a b = false → GreaterThan b c = false → GreaterThan a c = false.

(** ** output.go: the table *)

(** A call that returns feeds its result to what follows; a panic ends
    the function. *)
Global Instance outcome_ret : MRet outcome := λ A a, Returns a.
Global Instance outcome_bind : MBind outcome := λ A B f m,
  match m with
  | Returns a => f a
  | Panics => Panics
  end.

(** [len(s)], an [int]. The sums below add a few lengths of strings held
    in memory and a terminal width; they stay far inside 64 bits, and the
    arithmetic is that of [Z]. *)
Definition len (s : string) : Z := Z.of_nat (String.length s).

(** [s[:hi]]: out of range, the slice expression panics. *)
Definition string_slice_to (s : string) (hi : Z) : outcome string :=
  if (0 <=? hi)%Z && (hi <=? len s)%Z
  then Returns (String.substring 0 (Z.to_nat hi) s)
  else Panics.

Definition tab : string := String (ascii_of_nat 9) EmptyString.
Definition newline : string := String (ascii_of_nat 10) EmptyString.

Definition normalHeader : string :=
  "MODULE" +:+ tab +:+ "LATEST" +:+ tab +:+ "TYPE" +:+ tab +:+ "TIER" +:+ tab
  +:+ "DESCRIPTION" +:+ newline.
Definition briefHeader : string :=
  "MODULE" +:+ tab +:+ "DESCRIPTION" +:+ newline.
Definition typeColWidth : Z := 4.
Definition tierColWidth : Z := 4.
Definition minDescWidth : Z := 20.
Definition columnPadding : Z := 2.
Definition normalPaddings : Z := 10.
Definition briefPaddings : Z := 4.
Definition defaultTerminalWidth : Z := 120.
Definition dots : string := "...".
Definition dotsLen : Z := len dots.

(** [abbrev] *)
Definition abbrev (s : string) : string :=
  if s =? "JavaScript" then "js"
  else if s =? "Output" then "out"
  else if s =? "Subcommand" then "sub"
  else if s =? "Official" then "off"
  else if s =? "Community" then "com"
  else s.

(** [gs.Stdout], as far as [getTerminalWidth] reads it. *)
Record Stdout : Type := mkStdout {
  IsTTY : bool;
  RawOutFd : Z
}.

(** [golang.org/x/term]: [IsTerminal(fd)] and [GetSize(fd)], which
    returns a width, a height and an error. *)
Class TermEnv : Type := {
  term_IsTerminal : Z → bool;
  term_GetSize : Z → Z * Z * option error
}.

(** [getTerminalWidth] *)
Definition getTerminalWidth `{T : TermEnv} (stdout : Stdout) : Z :=
  if IsTTY stdout && term_IsTerminal (RawOutFd stdout) then
    let '(width, _, err) := term_GetSize (RawOutFd stdout) in
    if bool_decide (err = None) && (0 <? width)%Z then width
    else defaultTerminalWidth
  else defaultTerminalWidth.

(** The first loop of [outputTable]: the widest of the columns that are
    not the description, with the paddings added after the loop. *)
Definition outputTable_otherLen (brief : bool) (ext : extension) : Z :=
  let otherLen := len (Module_ ext) in
  if negb brief
  then (otherLen + (len (Latest ext) + typeColWidth + tierColWidth))%Z
  else otherLen.

Definition outputTable_otherCols (extensions : list extension) (brief : bool) : Z :=
  let otherCols :=
    foldl (λ otherCols ext,
             let otherLen := outputTable_otherLen brief ext in
             if (otherCols <? otherLen)%Z then otherLen else otherCols)
          0%Z extensions in
  if brief then (otherCols + briefPaddings)%Z else (otherCols + normalPaddings)%Z.

Definition outputTable_descWidth (termWidth : Z) (extensions : list extension)
    (brief : bool) : Z :=
  Z.max (termWidth - outputTable_otherCols extensions brief) minDescWidth.

(** The description as it is written: cut to [descWidth] bytes, the last
    three of them dots, unless [notrunc] is set or it fits. *)
Definition outputTable_desc (descWidth : Z) (notrunc : bool) (desc : string)
    : outcome string :=
  if negb notrunc && (descWidth <? len desc)%Z
  then head ← string_slice_to desc (descWidth - dotsLen);
       mret (head +:+ dots)
  else mret desc.

(** One iteration of the second loop: the bytes of the call of
    [w.Write]. *)
Definition outputTable_row (descWidth : Z) (brief notrunc : bool)
    (ext : extension) : outcome string :=
  let module := Module_ ext in
  let latest := Latest ext in
  let typ := abbrev (extensionType ext) in
  let tier := abbrev (extensionTier ext) in
  desc ← outputTable_desc descWidth notrunc (Description ext);
  if brief then mret (module +:+ tab +:+ desc +:+ newline)
  else mret (module +:+ tab +:+ latest +:+ tab +:+ typ +:+ tab +:+ tier +:+ tab
             +:+ desc +:+ newline).

(** [outputTable]: what is written to the tabwriter, call by call. The
    value the function returns is that of [w.Flush()], which lays the
    cells out and belongs to package [text/tabwriter]. *)
Definition outputTable `{T : TermEnv} (stdout : Stdout)
    (extensions : list extension) (brief notrunc : bool)
    : outcome (list string) :=
  let termWidth := getTerminalWidth stdout in
  let descWidth := outputTable_descWidth termWidth extensions brief in
  foldl (λ written ext,
           lines ← written;
           row ← outputTable_row descWidth brief notrunc ext;
           mret (lines ++ [row]))
        (Returns [if brief then briefHeader else normalHeader])
        extensions.

(** ** The earlier revision of output.go

    The revision that [cmd.go] and the tests are written against: the
    labels are the short ones, and [outputTable] always truncates. *)
Module Part001.

Definition extensionType (e : extension) : string :=
  if bool_decide (0 < length (Imports e)) then "js"
  else if bool_decide (0 < length (Outputs e)) then "out"
  else if bool_decide (0 < length (Subcommands e)) then "sub"
  else "".

Definition extensionTier (e : extension) : string :=
  if Tier e =? "official" then "off" else "com".

Definition outputTable_row (descWidth : Z) (brief : bool) (ext : extension)
    : outcome string :=
  let module := Module_ ext in
  let latest := Latest ext in
  let typ := extensionType ext in
  let tier := extensionTier ext in
  desc ← (if (descWidth <? len (Description ext))%Z
          then head ← string_slice_to (Description ext) (descWidth - dotsLen);
               mret (head +:+ dots)
          else mret (Description ext));
  if brief then mret (module +:+ tab +:+ desc +:+ newline)
  else mret (module +:+ tab +:+ latest +:+ tab +:+ typ +:+ tab +:+ tier +:+ tab
             +:+ desc +:+ newline).

Definition outputTable `{T : TermEnv} (stdout : Stdout)
    (extensions : list extension) (brief : bool) : outcome (list string) :=
  let termWidth := getTerminalWidth stdout in
  let descWidth := outputTable_descWidth termWidth extensions brief in
  foldl (λ written ext,
           lines ← written;
           row ← outputTable_row descWidth brief ext;
           mret (lines ++ [row]))
        (Returns [if brief then briefHeader else normalHeader])
        extensions.

End Part001.

(** *** A terminal of eighty columns, and none *)

Definition terminal_80 : TermEnv :=
  {| term_IsTerminal fd := true;
     term_GetSize fd := (80%Z, 24%Z, None) |}.

Definition no_terminal : TermEnv :=
  {| term_IsTerminal fd := false;
     term_GetSize fd := (0%Z, 0%Z, Some (errors_New "inappropriate ioctl for device")) |}.

(** *** A world whose catalog has a null entry, and one whose body is null *)

Definition null_entry_catalog : gmap string (option extension) :=
  <["a" := Some SimNet.ext_a]> (<["b" := None]> ∅).

Definition null_world : SimNet.world :=
  {| SimNet.routes url :=
       if url =? "http://registry/null-entry"
       then Some (mkResponse 200 "200 OK" "null-entry")
       else if url =? "http://registry/null"
       then Some (mkResponse 200 "200 OK" "null")
       else None;
     SimNet.decode body :=
       if body =? "null-entry" then inr (Some null_entry_catalog)
       else if body =? "null" then inr None
       else inl (errors_New "unexpected end of JSON input") |}.

(** *** Ranging in the opposite order *)

Definition reversed_MapRange : MapRange := λ V m, reverse (map_to_list m).

(** ** cmd.go: run *)

(** [type options struct], with the two fields of [gs] that are read. *)
Record options `{N : NetEnv} : Type := mkOptions {
  opts_json : bool;
  opts_brief : bool;
  opts_tier : tier;
  opts_kind : kind;
  opts_gs_Ctx : context_Context;
  opts_gs_Stdout : Stdout
}.

(** What [run] hands over for output: the list given to
    [encoder.Encode], or the lines written to the tabwriter before
    [w.Flush()]. *)
Inductive output : Type :=
  | encoded (extensions : list extension)
  | tabulated (lines : list string).

(** The errors the two output libraries return. *)
Class OutputEnv : Type := {
  Encoder_Encode : list extension → option error;
  Writer_Flush : list string → option error
}.

(** [outputJSON] *)
Definition outputJSON `{O : OutputEnv} (extensions : list extension)
    : outcome (list output * option error) :=
  Returns ([encoded extensions], Encoder_Encode extensions).

(** [run], against the table of the earlier revision, which is the one
    with the three parameters of the call. The result is what was handed
    over for output, and the error returned. Ranging over the nil map
    that comes with a nil catalog visits nothing. *)
Definition run `{S : Semver} `{R : MapRange} `{N : NetEnv} `{T : TermEnv}
    `{O : OutputEnv} (opts : options)
    : outcome (list output * option error) :=
  fetched ← getDefaultExtensionCatalog (opts_gs_Ctx opts);
  match fetched with
  | (_, Some err) => Returns ([], Some err)
  | (catalog, None) =>
      let extensions :=
        filterExtensions (default ∅ catalog) (opts_kind opts) (opts_tier opts) in
      if opts_json opts then outputJSON extensions
      else
        lines ← Part001.outputTable (opts_gs_Stdout opts) extensions
                                     (opts_brief opts);
        Returns ([tabulated lines], Writer_Flush lines)
  end.

(** *** Output libraries that report no error *)

Definition quiet_OutputEnv : OutputEnv :=
  {| Encoder_Encode extensions := None;
     Writer_Flush lines := None |}.

(** *** A world in which the registry answers at its address *)

Definition registry_world : SimNet.world :=
  {| SimNet.routes url :=
       if url =? defaultExtensionCatalogURL
       then Some (mkResponse 200 "200 OK" "catalog")
       else None;
     SimNet.decode body :=
       if body =? "catalog" then inr (Some SimNet.sample_catalog)
       else inl (errors_New "unexpected end of JSON input") |}.

(** ** JSON texts *)

(** A JSON object is written between braces: a text whose first byte
    after white space is not an opening brace is not an object. *)
Fixpoint begins_JSON_object (body : string) : bool :=
  match body with
  | EmptyString => false
  | String c rest =>
      if Ascii.eqb c " " || Ascii.eqb c (ascii_of_nat 9)
         || Ascii.eqb c (ascii_of_nat 10) || Ascii.eqb c (ascii_of_nat 13)
      then begins_JSON_object rest
      else Ascii.eqb c "{"
  end.

(** ** The keys of the order *)

(** The three fields that the closure of [sortExtensions] reads. *)
Definition sort_key (e : extension) : string * string * string :=
  (Tier e, extensionType e, Module_ e).

(** *** A sort that is not stable

    Sorting the reversed list by insertion meets the interface as well;
    it leaves elements that are equal in the reverse of the order they
    came in, which [sort.Slice] is allowed to do. *)
Definition reversing_SortSlice : SortSlice := λ A less l,
  insertionSort less (reverse l).

(** Two descriptors with the same tier, kind and module. *)
Definition twin_a : extension :=
  mkExtension "example.com/xk6-twin" "community" "first" "" [] ["k6/x/twin"] [] [].
Definition twin_b : extension :=
  mkExtension "example.com/xk6-twin" "community" "second" "" [] ["k6/x/twin"] [] [].

(* ===================================================================== *)
(** * Part II: properties                                                 *)
(* ===================================================================== *)

(** ** Comparisons *)

Section CmpOrderFacts.
Context {A : Type} (c : A → A → comparison) (Hc : CmpOrder c).

Lemma cmp_refl x : c x x = Eq.
Proof.
  pose proof (cmp_antisym c Hc x x) as H.
  destruct (c x x); simpl in H; congruence.
Qed.

Lemma cmp_lt_le_trans x y z : c x y = Lt → c y z ≠ Gt → c x z = Lt.
Proof.
  intros Hxy Hyz.
  assert (c x z ≠ Gt) as Hxz by (apply (cmp_le_trans c Hc x y z); congruence).
  destruct (c x z) eqn:E; [|done|done].
  exfalso. apply (cmp_le_trans c Hc y z x); [done| |].
  - rewrite (cmp_antisym c Hc x z), E. done.
  - rewrite (cmp_antisym c Hc x y), Hxy. done.
Qed.

Lemma cmp_le_lt_trans x y z : c x y ≠ Gt → c y z = Lt → c x z = Lt.
Proof.
  intros Hxy Hyz.
  assert (c x z ≠ Gt) as Hxz by (apply (cmp_le_trans c Hc x y z); congruence).
  destruct (c x z) eqn:E; [|done|done].
  exfalso. apply (cmp_le_trans c Hc z x y); [|done|].
  - rewrite (cmp_antisym c Hc x z), E. done.
  - rewrite (cmp_antisym c Hc y z), Hyz. done.
Qed.

Lemma cmp_eq_trans x y z : c x y = Eq → c y z = Eq → c x z = Eq.
Proof.
  intros Hxy Hyz.
  assert (c x z ≠ Gt) as Hxz by (apply (cmp_le_trans c Hc x y z); congruence).
  assert (c z x ≠ Gt) as Hzx.
  { apply (cmp_le_trans c Hc z y x).
    - rewrite (cmp_antisym c Hc y z), Hyz. done.
    - rewrite (cmp_antisym c Hc x y), Hxy. done. }
  rewrite (cmp_antisym c Hc x z) in Hzx.
  destruct (c x z); simpl in *; congruence.
Qed.

Lemma cmp_flip : CmpOrder (λ x y, c y x).
Proof.
  split.
  - intros x y. apply (cmp_antisym c Hc).
  - intros x y z Hxy Hyz. apply (cmp_le_trans c Hc z y x); done.
Qed.

Lemma cmp_pull {B : Type} (f : B → A) : CmpOrder (λ x y, c (f x) (f y)).
Proof.
  split.
  - intros x y. apply (cmp_antisym c Hc).
  - intros x y z. apply (cmp_le_trans c Hc).
Qed.

Lemma cmp_ge_trans x y z : c x y ≠ Lt → c y z ≠ Lt → c x z ≠ Lt.
Proof.
  intros Hxy Hyz Hxz.
  apply (cmp_le_trans c Hc z y x).
  - rewrite (cmp_antisym c Hc y z). destruct (c y z); simpl; congruence.
  - rewrite (cmp_antisym c Hc x y). destruct (c x y); simpl; congruence.
  - rewrite (cmp_antisym c Hc x z), Hxz. done.
Qed.

Lemma cmp_gt_trans x y z : c x y = Gt → c y z = Gt → c x z = Gt.
Proof.
  intros Hxy Hyz.
  assert (c z x = Lt) as H.
  { apply (cmp_lt_le_trans z y x).
    - rewrite (cmp_antisym c Hc y z), Hyz. done.
    - rewrite (cmp_antisym c Hc x y), Hxy. done. }
  rewrite (cmp_antisym c Hc z x), H. done.
Qed.

(** The strict part of the comparison is what package [sort] asks of a
    [less] function. *)
Lemma cmp_StrictWeakOrder : StrictWeakOrder (λ x y, is_Lt (c x y)).
Proof.
  split.
  - intros x. by rewrite cmp_refl.
  - intros x y z Hxy Hyz.
    destruct (c x y) eqn:E1; try done. destruct (c y z) eqn:E2; try done.
    rewrite (cmp_lt_le_trans x y z); [done..|congruence].
  - intros x y z Hxy Hyz.
    destruct (c x z) eqn:E; try done. exfalso.
    apply (cmp_ge_trans x y z); [| |done].
    + destruct (c x y); done.
    + destruct (c y z); done.
Qed.

End CmpOrderFacts.

Lemma cmp_lex_CmpOrder {A : Type} (c1 c2 : A → A → comparison) :
  CmpOrder c1 → CmpOrder c2 → CmpOrder (cmp_lex c1 c2).
Proof.
  intros H1 H2. split.
  - intros x y. unfold cmp_lex.
    rewrite (cmp_antisym c1 H1 x y).
    destruct (c1 x y); simpl; [apply (cmp_antisym c2 H2)|done..].
  - intros x y z. unfold cmp_lex.
    destruct (c1 x y) eqn:E1; [| |done].
    + destruct (c1 y z) eqn:E2; [| |done].
      * rewrite (cmp_eq_trans c1 H1 x y z); [|done..].
        apply (cmp_le_trans c2 H2).
      * rewrite (cmp_le_lt_trans c1 H1 x y z); [done|congruence|done].
    + intros _ Hyz.
      rewrite (cmp_lt_le_trans c1 H1 x y z); [done|done|].
      destruct (c1 y z); congruence.
Qed.

Lemma N_compare_CmpOrder : CmpOrder N.compare.
Proof.
  split.
  - intros x y. apply N.compare_antisym.
  - intros x y z. rewrite !N.compare_le_iff. apply N.le_trans.
Qed.

Lemma ascii_compare_CmpOrder : CmpOrder Ascii.compare.
Proof. apply (cmp_pull N.compare N_compare_CmpOrder N_of_ascii). Qed.

Lemma string_compare_CmpOrder : CmpOrder String.compare.
Proof.
  split.
  - intros x y. apply String.compare_antisym.
  - intros x. induction x as [|a x IH]; intros [|b y] [|d z]; simpl; try done.
    pose proof ascii_compare_CmpOrder as Ha.
    destruct (Ascii.compare a b) eqn:E1; [| |done].
    + destruct (Ascii.compare b d) eqn:E2; [| |done].
      * rewrite (cmp_eq_trans _ Ha a b d); [|done..]. apply IH.
      * rewrite (cmp_le_lt_trans _ Ha a b d); [done|congruence|done].
    + intros _ Hyz.
      rewrite (cmp_lt_le_trans _ Ha a b d); [done|done|].
      destruct (Ascii.compare b d); congruence.
Qed.

Lemma string_compare_Eq (a b : string) : String.compare a b = Eq ↔ a = b.
Proof.
  split.
  - apply String.compare_eq_iff.
  - intros ->. apply (cmp_refl _ string_compare_CmpOrder).
Qed.

Lemma GoString_neq_false (a b : string) : GoString.neq a b = false ↔ a = b.
Proof.
  unfold GoString.neq. rewrite negb_false_iff. apply String.eqb_eq.
Qed.

Lemma GoString_neq_true (a b : string) : GoString.neq a b = true ↔ a ≠ b.
Proof.
  unfold GoString.neq. rewrite negb_true_iff. apply String.eqb_neq.
Qed.

Lemma GoString_gt_or_lt (a b : string) :
  a ≠ b → GoString.lt a b = true ∨ GoString.gt a b = true.
Proof.
  intros Hne. unfold GoString.lt, GoString.gt, String.ltb.
  rewrite (String.compare_antisym a b).
  destruct (String.compare b a) eqn:E; simpl; auto.
  apply string_compare_Eq in E. congruence.
Qed.

(** ** The [less] closure of [sortExtensions] is a transitive ordering *)

Lemma StrictWeakOrder_ext {A : Type} (f g : A → A → bool) :
  (∀ x y, f x y = g x y) → StrictWeakOrder g → StrictWeakOrder f.
Proof.
  intros Hfg [Hi Ht He]. split.
  - intros x. rewrite Hfg. apply Hi.
  - intros x y z. rewrite !Hfg. apply Ht.
  - intros x y z. rewrite !Hfg. apply He.
Qed.

Lemma swo_asym {A : Type} (less : A → A → bool) :
  StrictWeakOrder less → ∀ x y, less x y = true → less y x = false.
Proof.
  intros [Hi Ht He] x y Hxy.
  destruct (less y x) eqn:Hyx; [|done].
  rewrite <-(Hi x). symmetry. by apply (Ht x y x).
Qed.

Lemma sortExtensions_cmp_CmpOrder : CmpOrder sortExtensions_cmp.
Proof.
  pose proof string_compare_CmpOrder as Hs.
  unfold sortExtensions_cmp. repeat apply cmp_lex_CmpOrder.
  - apply (cmp_flip _ (cmp_pull _ Hs Tier)).
  - apply (cmp_pull _ Hs extensionType).
  - apply (cmp_pull _ Hs Module_).
Qed.

Lemma sortExtensions_less_cmp (a b : extension) :
  sortExtensions_less a b = is_Lt (sortExtensions_cmp a b).
Proof.
  unfold sortExtensions_less, sortExtensions_cmp, cmp_lex.
  destruct (GoString.neq (Tier a) (Tier b)) eqn:Et.
  - apply GoString_neq_true in Et.
    unfold GoString.gt, String.ltb.
    destruct (String.compare (Tier b) (Tier a)) eqn:E; try done.
    apply string_compare_Eq in E. congruence.
  - apply GoString_neq_false in Et. rewrite Et.
    rewrite (cmp_refl _ string_compare_CmpOrder). simpl.
    destruct (GoString.neq (extensionType a) (extensionType b)) eqn:Ek.
    + apply GoString_neq_true in Ek.
      unfold GoString.lt, String.ltb.
      destruct (String.compare (extensionType a) (extensionType b)) eqn:E;
        try done.
      apply string_compare_Eq in E. congruence.
    + apply GoString_neq_false in Ek. rewrite Ek.
      rewrite (cmp_refl _ string_compare_CmpOrder). done.
Qed.

Lemma sortExtensions_less_StrictWeakOrder : StrictWeakOrder sortExtensions_less.
Proof.
  apply (StrictWeakOrder_ext _ (λ a b, is_Lt (sortExtensions_cmp a b))).
  - apply sortExtensions_less_cmp.
  - apply cmp_StrictWeakOrder, sortExtensions_cmp_CmpOrder.
Qed.

(** ** Sorting by insertion meets the interface *)

Section InsertionSort.
Context {A : Type} (less : A → A → bool).

Lemma insertionSort_insert_perm x l : insertionSort_insert less x l ≡ₚ x :: l.
Proof.
  induction l as [|y l IH]; simpl; [done|].
  destruct (less x y); [|done].
  rewrite IH. apply Permutation_swap.
Qed.

Lemma insertionSort_loop_perm data acc :
  foldl (λ sorted_rev x, insertionSort_insert less x sorted_rev) acc data
  ≡ₚ data ++ acc.
Proof.
  revert acc. induction data as [|x data IH]; intros acc; simpl; [done|].
  rewrite IH, insertionSort_insert_perm. by rewrite Permutation_middle.
Qed.

Lemma insertionSort_perm data : insertionSort less data ≡ₚ data.
Proof.
  unfold insertionSort. rewrite reverse_Permutation, insertionSort_loop_perm.
  by rewrite app_nil_r.
Qed.

Lemma insertionSort_insert_sorted (Hless : StrictWeakOrder less) x l :
  StronglySorted (λ a b, less a b = false) l →
  StronglySorted (λ a b, less a b = false) (insertionSort_insert less x l).
Proof.
  induction l as [|y l IH]; simpl; intros Hl.
  - repeat constructor.
  - apply StronglySorted_cons in Hl as [Hy Hl].
    destruct (less x y) eqn:Hxy.
    + apply StronglySorted_cons. split; [|by apply IH].
      rewrite insertionSort_insert_perm. constructor; [|done].
      by apply (swo_asym less Hless).
    + apply StronglySorted_cons. split.
      * constructor; [done|].
        eapply Forall_impl; [exact Hy|]. simpl. intros b Hyb.
        by apply (swo_equiv_trans less Hless x y b).
      * by apply StronglySorted_cons.
Qed.

Lemma insertionSort_loop_sorted (Hless : StrictWeakOrder less) data acc :
  StronglySorted (λ a b, less a b = false) acc →
  StronglySorted (λ a b, less a b = false)
    (foldl (λ sorted_rev x, insertionSort_insert less x sorted_rev) acc data).
Proof.
  revert acc. induction data as [|x data IH]; intros acc Hacc; simpl; [done|].
  by apply IH, insertionSort_insert_sorted.
Qed.

Lemma StronglySorted_reverse (R : relation A) l :
  StronglySorted R l → StronglySorted (flip R) (reverse l).
Proof.
  induction l as [|x l IH]; [intros _; constructor|].
  intros [Hx Hl]%StronglySorted_cons.
  rewrite reverse_cons. apply StronglySorted_app_2.
  - intros a b Ha Hb. apply list_elem_of_singleton in Hb as ->.
    rewrite elem_of_reverse in Ha. rewrite Forall_forall in Hx.
    unfold flip. by apply Hx.
  - by apply IH.
  - repeat constructor.
Qed.

Lemma insertionSort_sorted data :
  StrictWeakOrder less → StronglySorted (not_after less) (insertionSort less data).
Proof.
  intros Hless. unfold insertionSort.
  apply (StronglySorted_reverse (λ a b, less a b = false)).
  apply insertionSort_loop_sorted; [done|constructor].
Qed.

Lemma insertionSort_loop_keeps pre rest :
  StronglySorted (not_after less) (pre ++ rest) →
  foldl (λ sorted_rev x, insertionSort_insert less x sorted_rev) (reverse pre) rest
  = reverse (pre ++ rest).
Proof.
  revert pre. induction rest as [|x rest IH]; intros pre Hs; simpl.
  - by rewrite app_nil_r.
  - replace (pre ++ x :: rest) with ((pre ++ [x]) ++ rest) in *
      by (by rewrite <-app_assoc).
    rewrite <-IH by done. f_equal.
    rewrite reverse_app. simpl.
    apply StronglySorted_app_1_l in Hs.
    destruct (reverse pre) as [|y l] eqn:E; simpl; [done|].
    assert (y ∈ pre) as Hy by (rewrite <-elem_of_reverse, E; left).
    assert (not_after less y x) as Hyx.
    { apply (StronglySorted_app_1_elem_of _ pre [x]); [done..|left]. }
    unfold not_after in Hyx. by rewrite Hyx.
Qed.

Lemma insertionSort_keeps_sorted data :
  StronglySorted (not_after less) data → insertionSort less data = data.
Proof.
  intros Hs. unfold insertionSort.
  change (@nil A) with (reverse (@nil A)).
  rewrite (insertionSort_loop_keeps [] data Hs). apply reverse_involutive.
Qed.

End InsertionSort.

Lemma insertion_SortSliceLaws : SortSliceLaws insertion_SortSlice.
Proof.
  split.
  - intros A less l. apply insertionSort_perm.
  - intros A less l. apply insertionSort_sorted.
Qed.

Lemma listed_MapRangeLaws : MapRangeLaws listed_MapRange.
Proof. intros V m. done. Qed.

(** ** The reference implementation of the version interface meets it *)

Lemma SemverRef_ident_compare_CmpOrder : CmpOrder SemverRef.ident_compare.
Proof.
  pose proof N_compare_CmpOrder as HN.
  pose proof string_compare_CmpOrder as HS.
  split.
  - intros [x|x] [y|y]; simpl; try done.
    + apply (cmp_antisym _ HN).
    + apply (cmp_antisym _ HS).
  - intros [x|x] [y|y] [z|z]; simpl; try done.
    + apply (cmp_le_trans _ HN).
    + apply (cmp_le_trans _ HS).
Qed.

Lemma SemverRef_idents_compare_CmpOrder : CmpOrder SemverRef.idents_compare.
Proof.
  pose proof SemverRef_ident_compare_CmpOrder as Hi.
  split.
  - intros x. induction x as [|a x IH]; intros [|b y]; simpl; try done.
    rewrite (cmp_antisym _ Hi a b).
    destruct (SemverRef.ident_compare a b); simpl; [apply IH|done..].
  - intros x. induction x as [|a x IH]; intros [|b y] [|d z]; simpl; try done.
    destruct (SemverRef.ident_compare a b) eqn:E1; [| |done].
    + destruct (SemverRef.ident_compare b d) eqn:E2; [| |done].
      * rewrite (cmp_eq_trans _ Hi a b d); [|done..]. apply IH.
      * rewrite (cmp_le_lt_trans _ Hi a b d); [done|congruence|done].
    + intros _ Hyz.
      rewrite (cmp_lt_le_trans _ Hi a b d); [done|done|].
      destruct (SemverRef.ident_compare b d); congruence.
Qed.

Lemma SemverRef_pre_compare_CmpOrder : CmpOrder SemverRef.pre_compare.
Proof.
  pose proof SemverRef_idents_compare_CmpOrder as Hl.
  split.
  - intros [x|] [y|]; simpl; try done. apply (cmp_antisym _ Hl).
  - intros [x|] [y|] [z|]; simpl; try done. apply (cmp_le_trans _ Hl).
Qed.

Lemma SemverRef_Compare_lex (v o : SemverRef.Version) :
  SemverRef.Compare v o =
  cmp_lex (λ a b, N.compare (SemverRef.major a) (SemverRef.major b))
    (cmp_lex (λ a b, N.compare (SemverRef.minor a) (SemverRef.minor b))
      (cmp_lex (λ a b, N.compare (SemverRef.patch a) (SemverRef.patch b))
        (λ a b, SemverRef.pre_compare (SemverRef.pre_key (SemverRef.pre a))
                                      (SemverRef.pre_key (SemverRef.pre b)))))
    v o.
Proof. reflexivity. Qed.

Lemma SemverRef_Compare_CmpOrder : CmpOrder SemverRef.Compare.
Proof.
  pose proof N_compare_CmpOrder as HN.
  pose proof SemverRef_pre_compare_CmpOrder as HP.
  pose proof (cmp_lex_CmpOrder _ _ (cmp_pull _ HN SemverRef.major)
    (cmp_lex_CmpOrder _ _ (cmp_pull _ HN SemverRef.minor)
      (cmp_lex_CmpOrder _ _ (cmp_pull _ HN SemverRef.patch)
        (cmp_pull _ HP (λ a, SemverRef.pre_key (SemverRef.pre a)))))) as [Ha Ht].
  split.
  - intros x y. rewrite !SemverRef_Compare_lex. apply Ha.
  - intros x y z. rewrite !SemverRef_Compare_lex. apply Ht.
Qed.

Lemma SemverRef_NewVersion_original (s : string) (v : SemverRef.Version) :
  SemverRef.NewVersion s = Some v → SemverRef.original v = s.
Proof.
  unfold SemverRef.NewVersion. intros H.
  repeat (simplify_option_eq; repeat case_match); done.
Qed.

Lemma ref_SemverLaws : SemverLaws ref_Semver.
Proof.
  pose proof SemverRef_Compare_CmpOrder as Hc.
  split; simpl.
  - apply SemverRef_NewVersion_original.
  - intros v. unfold SemverRef.GreaterThan. by rewrite (cmp_refl _ Hc).
  - intros a b c. unfold SemverRef.GreaterThan.
    destruct (SemverRef.Compare a b) eqn:E1; try done.
    destruct (SemverRef.Compare b c) eqn:E2; try done.
    by rewrite (cmp_gt_trans _ Hc a b c).
Qed.

(** ** findLatest *)

Section FindLatestFacts.
Context `{S : Semver}.

Lemma findLatest_step_invalid (latest : Version) (bad : string) :
  NewVersion bad = None → findLatest_step latest bad = latest.
Proof. intros H. unfold findLatest_step. by rewrite H. Qed.

(** C3. The empty list gives the empty string; so does every list whose
    first entry does not parse, whatever follows it; and an entry after
    the first that does not parse can be removed without changing the
    result. *)
Theorem findLatest_parse_failure (bad v0 : string) (l1 l2 : list string) :
  NewVersion bad = None →
  findLatest [] = "" ∧
  findLatest (bad :: l1) = "" ∧
  findLatest (v0 :: l1 ++ bad :: l2) = findLatest (v0 :: l1 ++ l2).
Proof.
  intros Hbad. split; [done|]. split.
  - simpl. by rewrite Hbad.
  - simpl. destruct (NewVersion v0) as [latest|]; [|done].
    f_equal. rewrite !foldl_app. simpl.
    by rewrite findLatest_step_invalid.
Qed.

Context {L : SemverLaws S}.

(** The invariant of the loop: [latest] is the parsed form of an entry
    seen so far, and no parsed entry seen so far is greater. *)
Lemma findLatest_loop_max (rest seen : list string) (latest : Version) :
  (∃ s, s ∈ seen ∧ NewVersion s = Some latest) →
  (∀ s v, s ∈ seen → NewVersion s = Some v → GreaterThan v latest = false) →
  (∃ s, s ∈ seen ++ rest ∧
        NewVersion s = Some (foldl findLatest_step latest rest)) ∧
  (∀ s v, s ∈ seen ++ rest → NewVersion s = Some v →
          GreaterThan v (foldl findLatest_step latest rest) = false).
Proof.
  revert seen latest.
  induction rest as [|x rest IH]; intros seen latest Hin Hmax; simpl.
  - by rewrite app_nil_r.
  - replace (seen ++ x :: rest) with ((seen ++ [x]) ++ rest)
      by (by rewrite <-app_assoc).
    apply IH; unfold findLatest_step.
    + destruct (NewVersion x) as [ver|] eqn:Hx.
      * destruct (GreaterThan ver latest).
        -- exists x. split; [|done].
           apply elem_of_app. right. by apply list_elem_of_singleton.
        -- destruct Hin as (s & Hs & Hp). exists s. split; [|done].
           apply elem_of_app. by left.
      * destruct Hin as (s & Hs & Hp). exists s. split; [|done].
        apply elem_of_app. by left.
    + intros s v [Hs| ->%list_elem_of_singleton]%elem_of_app Hp.
      * specialize (Hmax s v Hs Hp).
        destruct (NewVersion x) as [ver|]; [|done].
        destruct (GreaterThan ver latest) eqn:Hgt; [|done].
        destruct (GreaterThan v ver) eqn:Hv; [|done].
        by rewrite (GreaterThan_trans v ver latest) in Hmax.
      * rewrite Hp. destruct (GreaterThan v latest) eqn:Hgt; [|done].
        apply GreaterThan_irrefl.
Qed.

Lemma findLatest_winner (v0 : string) (rest : list string) (ver0 : Version) :
  NewVersion v0 = Some ver0 →
  ∃ winner,
    findLatest (v0 :: rest) = Original winner ∧
    (∃ s, s ∈ v0 :: rest ∧ NewVersion s = Some winner) ∧
    (∀ s v, s ∈ v0 :: rest → NewVersion s = Some v →
            GreaterThan v winner = false).
Proof.
  intros H0. exists (foldl findLatest_step ver0 rest).
  simpl. rewrite H0. split; [done|].
  apply (findLatest_loop_max rest [v0] ver0).
  - exists v0. split; [by apply list_elem_of_singleton|done].
  - intros s v ->%list_elem_of_singleton Hp.
    rewrite H0 in Hp. injection Hp as <-. apply GreaterThan_irrefl.
Qed.

(** C2. When the first entry parses, the result is an entry of the list,
    in the very form it has there; it parses, and no entry of the list
    that parses is greater than it. Entries that do not parse play no
    part. *)
Theorem findLatest_is_maximum (v0 : string) (rest : list string) (ver0 : Version) :
  NewVersion v0 = Some ver0 →
  ∃ winner,
    findLatest (v0 :: rest) ∈ v0 :: rest ∧
    NewVersion (findLatest (v0 :: rest)) = Some winner ∧
    Original winner = findLatest (v0 :: rest) ∧
    (∀ s v, s ∈ v0 :: rest → NewVersion s = Some v →
            GreaterThan v winner = false).
Proof.
  intros H0.
  destruct (findLatest_winner v0 rest ver0 H0) as (w & -> & (s & Hs & Hp) & Hmax).
  exists w. rewrite (Original_NewVersion s w Hp). done.
Qed.

(** C10. The result is the empty string or one of the entries. *)
Theorem findLatest_from_input (versions : list string) :
  findLatest versions = "" ∨ findLatest versions ∈ versions.
Proof.
  destruct versions as [|v0 rest]; [by left|].
  destruct (NewVersion v0) as [ver0|] eqn:H0.
  - right.
    destruct (findLatest_winner v0 rest ver0 H0) as (w & -> & (s & Hs & Hp) & _).
    by rewrite (Original_NewVersion s w Hp).
  - left. simpl. by rewrite H0.
Qed.

End FindLatestFacts.

Lemma findLatest_parse_failure_witness :
  @NewVersion ref_Semver "invalid" = None ∧
  @findLatest ref_Semver [] = "" ∧
  @findLatest ref_Semver ["invalid"; "v1.0.0"] = "" ∧
  @findLatest ref_Semver (["v1.0.0"; "v0.9.0"] ++ "invalid" :: ["v1.1.0"])
  = @findLatest ref_Semver (["v1.0.0"; "v0.9.0"] ++ ["v1.1.0"]).
Proof.
  split; [reflexivity|].
  apply (@findLatest_parse_failure ref_Semver "invalid" "v1.0.0"
           ["v0.9.0"] ["v1.1.0"]).
  reflexivity.
Defined.

Lemma findLatest_is_maximum_witness :
  @NewVersion ref_Semver "v0.4.4"
  = Some (SemverRef.mkVersion 0 4 4 "" "" "v0.4.4") ∧
  ∃ winner,
    @findLatest ref_Semver ["v0.4.4"; "v0.5.0-beta.1"; "invalid"; "v0.4.3"]
      ∈ ["v0.4.4"; "v0.5.0-beta.1"; "invalid"; "v0.4.3"] ∧
    @NewVersion ref_Semver
      (@findLatest ref_Semver ["v0.4.4"; "v0.5.0-beta.1"; "invalid"; "v0.4.3"])
    = Some winner ∧
    @Original ref_Semver winner
    = @findLatest ref_Semver ["v0.4.4"; "v0.5.0-beta.1"; "invalid"; "v0.4.3"] ∧
    (∀ s v, s ∈ ["v0.4.4"; "v0.5.0-beta.1"; "invalid"; "v0.4.3"] →
            @NewVersion ref_Semver s = Some v →
            @GreaterThan ref_Semver v winner = false).
Proof.
  split; [reflexivity|].
  apply (@findLatest_is_maximum ref_Semver ref_SemverLaws "v0.4.4"
           ["v0.5.0-beta.1"; "invalid"; "v0.4.3"]
           (SemverRef.mkVersion 0 4 4 "" "" "v0.4.4")).
  reflexivity.
Defined.

Lemma findLatest_from_input_witness :
  @findLatest ref_Semver ["v0.4.2"; "v0.4.4"; "v0.4.3"] = "" ∨
  @findLatest ref_Semver ["v0.4.2"; "v0.4.4"; "v0.4.3"]
    ∈ ["v0.4.2"; "v0.4.4"; "v0.4.3"].
Proof.
  apply (@findLatest_from_input ref_Semver ref_SemverLaws).
Defined.

(** ** filterExtensions *)

Lemma kind_filter_absent (ext : extension) : kind_filter (Some "") ext = true.
Proof. reflexivity. Qed.

Lemma tier_filter_absent (ext : extension) : tier_filter (Some "") ext = true.
Proof. reflexivity. Qed.

(** What the loop adds to [filtered]: the descriptors it visits that are
    not the entry of k6 itself and that pass both filters. *)
Lemma elem_of_filterExtensions_loop (k : kind) (t : tier)
    (visited : list (string * extension)) (filtered : list extension)
    (ext : extension) :
  ext ∈ foldl (filterExtensions_step k t) filtered visited ↔
  ext ∈ filtered ∨
  ((∃ key, (key, ext) ∈ visited) ∧
   Module_ ext ≠ "go.k6.io/k6" ∧
   kind_filter (Some k) ext = true ∧ tier_filter (Some t) ext = true).
Proof.
  revert filtered.
  induction visited as [|[key e] visited IH]; intros filtered; cbn [foldl].
  - split; [by left|]. intros [?|[[? []%elem_of_nil] _]]. done.
  - rewrite IH. unfold filterExtensions_step. cbn [snd].
    destruct (Module_ e =? "go.k6.io/k6") eqn:Hself.
    { apply String.eqb_eq in Hself. split.
      - intros [?|[[key' ?] ?]]; [by left|right].
        split; [|done]. exists key'. by right.
      - intros [?|[[key' [[= -> ->]|?]%elem_of_cons] Hpass]];
          [by left|destruct Hpass; congruence|].
        right. split; [by exists key'|done]. }
    apply String.eqb_neq in Hself.
    destruct (kind_filter (Some k) e && tier_filter (Some t) e) eqn:Hpass.
    + apply andb_true_iff in Hpass as [Hk Ht]. rewrite elem_of_app.
      rewrite list_elem_of_singleton. split.
      * intros [[?| ->]|[[key' ?] ?]]; [by left| |].
        -- right. split; [|done]. exists key. by left.
        -- right. split; [|done]. exists key'. by right.
      * intros [?|[[key' [[= -> ->]|?]%elem_of_cons] ?]].
        -- left. by left.
        -- left. by right.
        -- right. split; [by exists key'|done].
    + split.
      * intros [?|[[key' ?] ?]]; [by left|right].
        split; [|done]. exists key'. by right.
      * intros [?|[[key' [[= -> ->]|?]%elem_of_cons] Hext]]; [by left| |].
        -- destruct Hext as (_ & Hk & Ht). rewrite Hk, Ht in Hpass. done.
        -- right. split; [by exists key'|done].
Qed.

(** C5. Whatever the catalog, the two filter values and the order of the
    iteration, the entry of k6 itself is not in the result. *)
Theorem filterExtensions_excludes_self `{R : MapRange}
    (catalog : gmap string extension) (k : kind) (t : tier) :
  Forall (λ ext, Module_ ext ≠ "go.k6.io/k6") (filterExtensions catalog k t).
Proof.
  apply Forall_forall. intros ext Hext. unfold filterExtensions in Hext.
  apply elem_of_filterExtensions_loop in Hext as [[]%elem_of_nil|(_ & Hne & _)].
  done.
Qed.

Lemma elem_of_filterExtensions `{R : MapRange} {L : MapRangeLaws R}
    (catalog : gmap string extension) (k : kind) (t : tier) (ext : extension) :
  ext ∈ filterExtensions catalog k t ↔
  (∃ key, catalog !! key = Some ext) ∧
  Module_ ext ≠ "go.k6.io/k6" ∧
  kind_filter (Some k) ext = true ∧ tier_filter (Some t) ext = true.
Proof.
  unfold filterExtensions. rewrite elem_of_filterExtensions_loop.
  assert ((∃ key, (key, ext) ∈ map_range catalog) ↔
          (∃ key, catalog !! key = Some ext)) as ->.
  { split; intros [key H]; exists key.
    - rewrite (map_range_perm _ catalog) in H. by apply elem_of_map_to_list in H.
    - rewrite (map_range_perm _ catalog). by apply elem_of_map_to_list. }
  split; [intros [[]%elem_of_nil|?]; done|by right].
Qed.

(** C6. A descriptor is in the result of filtering by kind and tier
    exactly when it is in the result of filtering by that kind alone and
    in the result of filtering by that tier alone. Each of the three calls
    may visit the catalog in an order of its own. *)
Theorem filterExtensions_conjunction (R1 R2 R3 : MapRange) :
  MapRangeLaws R1 → MapRangeLaws R2 → MapRangeLaws R3 →
  ∀ (catalog : gmap string extension) (k : kind) (t : tier) (ext : extension),
    ext ∈ @filterExtensions R1 catalog k t ↔
    ext ∈ @filterExtensions R2 catalog k "" ∧
    ext ∈ @filterExtensions R3 catalog "" t.
Proof.
  intros L1 L2 L3 catalog k t ext.
  rewrite !elem_of_filterExtensions.
  rewrite kind_filter_absent, tier_filter_absent. tauto.
Qed.

(** C7. A descriptor whose tier is neither ["official"] nor ["community"]
    is rejected by the tier filter set to either value, and accepted when
    the filter is not set (the empty value of the flag, or a nil
    receiver); so it is in no result of [filterExtensions] under a tier
    filter, and in the result without one whenever it is in the catalog,
    is not the entry of k6 and passes the kind filter. *)
Theorem tier_filter_unrecognized `{R : MapRange} {L : MapRangeLaws R}
    (catalog : gmap string extension) (key : string) (ext : extension)
    (k : kind) :
  Tier ext ≠ "official" → Tier ext ≠ "community" →
  tier_filter (Some tierOfficial) ext = false ∧
  tier_filter (Some tierCommunity) ext = false ∧
  tier_filter (Some "") ext = true ∧
  tier_filter None ext = true ∧
  (ext ∉ filterExtensions catalog k tierOfficial) ∧
  (ext ∉ filterExtensions catalog k tierCommunity) ∧
  (catalog !! key = Some ext → Module_ ext ≠ "go.k6.io/k6" →
   kind_filter (Some k) ext = true → ext ∈ filterExtensions catalog k "").
Proof.
  intros Hoff Hcom.
  assert (tier_filter (Some tierOfficial) ext = false) as H1.
  { simpl. by apply String.eqb_neq. }
  assert (tier_filter (Some tierCommunity) ext = false) as H2.
  { simpl. by apply String.eqb_neq. }
  repeat split; try done.
  - rewrite elem_of_filterExtensions, H1. intros (_ & _ & _ & [=]).
  - rewrite elem_of_filterExtensions, H2. intros (_ & _ & _ & [=]).
  - intros Hin Hne Hk. apply elem_of_filterExtensions.
    split; [by exists key|done].
Qed.

Lemma filterExtensions_conjunction_witness :
  MapRangeLaws listed_MapRange ∧
  (Sample.faker ∈ @filterExtensions listed_MapRange Sample.catalog
                    kindJavaScript tierOfficial ↔
   Sample.faker ∈ @filterExtensions listed_MapRange Sample.catalog
                    kindJavaScript "" ∧
   Sample.faker ∈ @filterExtensions listed_MapRange Sample.catalog
                    "" tierOfficial).
Proof.
  split; [exact listed_MapRangeLaws|].
  apply (filterExtensions_conjunction listed_MapRange listed_MapRange
           listed_MapRange listed_MapRangeLaws listed_MapRangeLaws
           listed_MapRangeLaws Sample.catalog kindJavaScript tierOfficial
           Sample.faker).
Defined.

Lemma tier_filter_unrecognized_witness :
  (Tier Sample.untiered ≠ "official" ∧ Tier Sample.untiered ≠ "community") ∧
  tier_filter (Some tierOfficial) Sample.untiered = false ∧
  tier_filter (Some tierCommunity) Sample.untiered = false ∧
  tier_filter (Some "") Sample.untiered = true ∧
  tier_filter None Sample.untiered = true ∧
  (Sample.untiered ∉ @filterExtensions listed_MapRange Sample.catalog
                       kindJavaScript tierOfficial) ∧
  (Sample.untiered ∉ @filterExtensions listed_MapRange Sample.catalog
                       kindJavaScript tierCommunity) ∧
  (Sample.catalog !! "xk6-untiered" = Some Sample.untiered →
   Module_ Sample.untiered ≠ "go.k6.io/k6" →
   kind_filter (Some kindJavaScript) Sample.untiered = true →
   Sample.untiered ∈ @filterExtensions listed_MapRange Sample.catalog
                       kindJavaScript "").
Proof.
  split; [split; discriminate|].
  apply (@tier_filter_unrecognized listed_MapRange listed_MapRangeLaws
           Sample.catalog "xk6-untiered" Sample.untiered kindJavaScript);
    discriminate.
Defined.

(** ** sortExtensions *)

Lemma extensionType_compare (a b : extension) :
  String.compare (extensionType a) (extensionType b)
  = Nat.compare (label_rank a) (label_rank b).
Proof.
  unfold extensionType, label_rank.
  repeat case_bool_decide; reflexivity.
Qed.

Lemma GoString_lt_false_leb (a b : string) :
  GoString.lt b a = false → String.leb a b = true.
Proof.
  unfold GoString.lt, String.ltb, String.leb.
  rewrite (String.compare_antisym b a).
  destruct (String.compare a b); simpl; done.
Qed.

(** Two neighbours that [less] does not put in the other order are in
    the order of the three keys. *)
Lemma not_after_ordered_by_keys (a b : extension) :
  not_after sortExtensions_less a b → ordered_by_keys label_rank a b.
Proof.
  unfold not_after, sortExtensions_less, ordered_by_keys.
  destruct (GoString.neq (Tier b) (Tier a)) eqn:Et.
  - apply GoString_neq_true in Et. intros Hgt. left.
    destruct (GoString_gt_or_lt (Tier a) (Tier b)) as [Hlt|?]; [congruence| |done].
    unfold GoString.gt in Hgt. unfold GoString.lt in Hlt. congruence.
  - apply GoString_neq_false in Et. right. split; [done|].
    destruct (GoString.neq (extensionType b) (extensionType a)) eqn:Ek.
    + apply GoString_neq_true in Ek. left.
      destruct (GoString_gt_or_lt (extensionType a) (extensionType b))
        as [Hlt|Hgt]; [congruence| |].
      * unfold GoString.lt, String.ltb in Hlt.
        rewrite extensionType_compare in Hlt.
        destruct (Nat.compare_spec (label_rank a) (label_rank b)); done.
      * unfold GoString.gt in Hgt. unfold GoString.lt in H. congruence.
    + apply GoString_neq_false in Ek. right. split.
      * apply Nat.compare_eq. rewrite <-extensionType_compare, Ek.
        apply (cmp_refl _ string_compare_CmpOrder).
      * by apply GoString_lt_false_leb.
Qed.

Lemma StronglySorted_weaken {A : Type} (R R' : relation A) (l : list A) :
  (∀ x y, R x y → R' x y) → StronglySorted R l → StronglySorted R' l.
Proof.
  intros HR. induction 1 as [|x l Hl IH Hx]; constructor; [done|].
  eapply Forall_impl; [exact Hx|]. apply HR.
Qed.

Lemma StronglySorted_lookup_lt {A : Type} (R : relation A) (l : list A)
    (i j : nat) (x y : A) :
  StronglySorted R l → l !! i = Some x → l !! j = Some y → i < j → R x y.
Proof.
  intros Hl. revert i j.
  induction Hl as [|z l Hl IH Hz]; intros i j Hi Hj Hij; [done|].
  destruct j as [|j]; [lia|]. simpl in Hj.
  destruct i as [|i]; simpl in Hi.
  - injection Hi as ->. rewrite Forall_forall in Hz.
    apply Hz. by eapply list_elem_of_lookup_2.
  - apply (IH i j); [done..|lia].
Qed.

Lemma sortExtensions_sorted `{S : SortSlice} {L : SortSliceLaws S}
    (extensions : list extension) :
  StronglySorted (not_after sortExtensions_less) (sortExtensions extensions).
Proof. apply sort_Slice_sorted, sortExtensions_less_StrictWeakOrder. Qed.

(** C1, as the code has it. The result holds the descriptors of the
    argument, ordered by tier descending, then by kind in the order
    none < javascript < output < subcommand (the order of the labels of
    [extensionType] as strings), then by module ascending. In particular
    every official descriptor stands before every community one. *)
Theorem sortExtensions_ordered `{S : SortSlice} {L : SortSliceLaws S}
    (extensions : list extension) :
  sortExtensions extensions ≡ₚ extensions ∧
  StronglySorted (ordered_by_keys label_rank) (sortExtensions extensions) ∧
  (∀ i j a b,
     sortExtensions extensions !! i = Some a →
     sortExtensions extensions !! j = Some b →
     Tier a = "official" → Tier b = "community" → i < j).
Proof.
  assert (StronglySorted (ordered_by_keys label_rank) (sortExtensions extensions))
    as Hsorted.
  { eapply StronglySorted_weaken; [|apply sortExtensions_sorted].
    apply not_after_ordered_by_keys. }
  split; [apply sort_Slice_perm|]. split; [done|].
  intros i j a b Hi Hj Ha Hb.
  destruct (Nat.lt_trichotomy i j) as [?|[->|Hji]]; [done| |].
  - rewrite Hi in Hj. injection Hj as ->. congruence.
  - pose proof (StronglySorted_lookup_lt _ _ j i b a Hsorted Hj Hi Hji) as Hba.
    unfold ordered_by_keys in Hba. rewrite Ha, Hb in Hba.
    destruct Hba as [Hgt|[Heq _]]; discriminate.
Qed.

Lemma sortExtensions_ordered_witness :
  SortSliceLaws insertion_SortSlice ∧
  @sortExtensions insertion_SortSlice
    [Sample.dashboard; Sample.faker; Sample.bare; Sample.prometheus]
    ≡ₚ [Sample.dashboard; Sample.faker; Sample.bare; Sample.prometheus] ∧
  StronglySorted (ordered_by_keys label_rank)
    (@sortExtensions insertion_SortSlice
       [Sample.dashboard; Sample.faker; Sample.bare; Sample.prometheus]) ∧
  (∀ i j a b,
     @sortExtensions insertion_SortSlice
       [Sample.dashboard; Sample.faker; Sample.bare; Sample.prometheus] !! i
     = Some a →
     @sortExtensions insertion_SortSlice
       [Sample.dashboard; Sample.faker; Sample.bare; Sample.prometheus] !! j
     = Some b →
     Tier a = "official" → Tier b = "community" → i < j).
Proof.
  split; [exact insertion_SortSliceLaws|].
  apply (@sortExtensions_ordered insertion_SortSlice insertion_SortSliceLaws).
Defined.

(** C1, as the specification words it, fails: of two official
    descriptors, the one without facet is put before the javascript one,
    by sorting by insertion (which is what [sort.Slice] does with two
    elements) and by every other sort that meets the interface. *)
Lemma sortExtensions_spec_rank_counterexample :
  @sortExtensions insertion_SortSlice [Sample.faker; Sample.bare]
  = [Sample.bare; Sample.faker] ∧
  (∀ S : SortSlice, SortSliceLaws S →
     @sortExtensions S [Sample.faker; Sample.bare] = [Sample.bare; Sample.faker]) ∧
  spec_kind_rank Sample.faker < spec_kind_rank Sample.bare ∧
  ¬ StronglySorted (ordered_by_keys spec_kind_rank)
      (@sortExtensions insertion_SortSlice [Sample.faker; Sample.bare]).
Proof.
  split; [reflexivity|]. split; [|split].
  - intros S L.
    pose proof (@sortExtensions_sorted S L [Sample.faker; Sample.bare]) as Hs.
    pose proof (sort_Slice_perm _ sortExtensions_less
                  [Sample.faker; Sample.bare]) as Hp.
    symmetry in Hp. apply Permutation_length_2_inv in Hp as [Hp|Hp]; [|done].
    unfold sortExtensions in *. rewrite Hp in Hs.
    apply StronglySorted_cons in Hs as [Hs _].
    apply Forall_cons in Hs as [Hs _]. discriminate Hs.
  - vm_compute. lia.
  - change (@sortExtensions insertion_SortSlice [Sample.faker; Sample.bare])
      with [Sample.bare; Sample.faker].
    intros [Hs _]%StronglySorted_cons. apply Forall_cons in Hs as [Hs _].
    destruct Hs as [Hgt|[_ [Hlt|[Heq _]]]].
    + discriminate Hgt.
    + vm_compute in Hlt. lia.
    + discriminate Heq.
Qed.

Lemma sortExtensions_cmp_Eq (a b : extension) :
  sortExtensions_cmp a b = Eq →
  Tier a = Tier b ∧ extensionType a = extensionType b ∧ Module_ a = Module_ b.
Proof.
  unfold sortExtensions_cmp, cmp_lex.
  destruct (String.compare (Tier b) (Tier a)) eqn:Et; try done.
  destruct (String.compare (extensionType a) (extensionType b)) eqn:Ek; try done.
  intros Em. apply string_compare_Eq in Et, Ek, Em. done.
Qed.

Lemma sortExtensions_less_equal_keys (a b : extension) :
  sortExtensions_less a b = false → sortExtensions_less b a = false →
  Tier a = Tier b ∧ extensionType a = extensionType b ∧ Module_ a = Module_ b.
Proof.
  rewrite !sortExtensions_less_cmp.
  rewrite (cmp_antisym _ sortExtensions_cmp_CmpOrder a b).
  intros Hab Hba. apply sortExtensions_cmp_Eq.
  destruct (sortExtensions_cmp a b); done.
Qed.

(** Idempotence from the documented interface of [sort.Slice] alone: it
    holds on every list in which two descriptors with the same tier, kind
    label and module are the same descriptor, which is the case when the
    modules are pairwise distinct. *)
Lemma sortExtensions_idempotent_by_contract `{S : SortSlice}
    {L : SortSliceLaws S} (extensions : list extension) :
  (∀ a b, a ∈ extensions → b ∈ extensions →
          Tier a = Tier b → extensionType a = extensionType b →
          Module_ a = Module_ b → a = b) →
  sortExtensions (sortExtensions extensions) = sortExtensions extensions.
Proof.
  intros Hkeys.
  apply (StronglySorted_unique_strong (not_after sortExtensions_less)).
  - intros a b Ha Hb Hab Hba.
    unfold sortExtensions in Ha, Hb. rewrite !sort_Slice_perm in Ha.
    rewrite sort_Slice_perm in Hb.
    destruct (sortExtensions_less_equal_keys a b) as (Ht & Hk & Hm); [done..|].
    by apply Hkeys.
  - apply sortExtensions_sorted.
  - apply sortExtensions_sorted.
  - apply sort_Slice_perm.
Qed.

Lemma sortExtensions_less_sort_key (a a' b b' : extension) :
  sort_key a = sort_key a' → sort_key b = sort_key b' →
  sortExtensions_less a b = sortExtensions_less a' b'.
Proof.
  unfold sort_key, sortExtensions_less.
  intros [= -> -> ->] [= -> -> ->]. done.
Qed.

(** Two sorted arrangements of the same descriptors show the same keys
    at every place. *)
Lemma sorted_sort_keys_unique (l1 l2 : list extension) :
  StronglySorted (not_after sortExtensions_less) l1 →
  StronglySorted (not_after sortExtensions_less) l2 →
  l1 ≡ₚ l2 → sort_key <$> l1 = sort_key <$> l2.
Proof.
  intros H1 H2 Hp.
  apply (StronglySorted_unique_strong
           (λ k1 k2, ∀ a b, sort_key a = k1 → sort_key b = k2 →
                            sortExtensions_less b a = false)).
  - intros k1 k2 (a & -> & Ha)%list_elem_of_fmap (b & -> & Hb)%list_elem_of_fmap
      H12 H21.
    destruct (sortExtensions_less_equal_keys a b) as (Ht & Hk & Hm).
    + by apply (H21 b a).
    + by apply (H12 a b).
    + unfold sort_key. by rewrite Ht, Hk, Hm.
  - eapply StronglySorted_fmap; [|exact H1].
    intros x y Hxy a b Ha Hb. unfold not_after in Hxy.
    by rewrite (sortExtensions_less_sort_key b y a x).
  - eapply StronglySorted_fmap; [|exact H2].
    intros x y Hxy a b Ha Hb. unfold not_after in Hxy.
    by rewrite (sortExtensions_less_sort_key b y a x).
  - by rewrite Hp.
Qed.


Lemma Sample_list_sort_keys (a b : extension) :
  a ∈ [Sample.dashboard; Sample.faker; Sample.bare; Sample.prometheus] →
  b ∈ [Sample.dashboard; Sample.faker; Sample.bare; Sample.prometheus] →
  sort_key a = sort_key b → a = b.
Proof.
  intros Ha Hb Hkey.
  repeat (apply elem_of_cons in Ha as [-> | Ha]);
    try (by apply elem_of_nil in Ha);
    repeat (apply elem_of_cons in Hb as [-> | Hb]);
    try (by apply elem_of_nil in Hb);
    first [reflexivity | discriminate Hkey].
Qed.

Lemma reversing_SortSliceLaws : SortSliceLaws reversing_SortSlice.
Proof.
  split.
  - intros A less l. unfold sort_Slice, reversing_SortSlice.
    by rewrite insertionSort_perm, reverse_Permutation.
  - intros A less l. apply insertionSort_sorted.
Qed.



(** ** getExtensionCatalog *)

Section GetExtensionCatalogFacts.
Context `{S : Semver} `{R : MapRange} `{N : NetEnv}.

Lemma updateLatest_step_Panics (visited : list (string * option extension)) :
  foldl updateLatest_step Panics visited = Panics.
Proof. induction visited as [|kv visited IH]; [done|]. simpl. exact IH. Qed.

(** A nil pointer among the values of the map makes the loop panic. *)
Lemma updateLatest_loop_nil (visited : list (string * option extension))
    (annotated : outcome (gmap string extension)) (key : string) :
  (key, None) ∈ visited → foldl updateLatest_step annotated visited = Panics.
Proof.
  revert annotated.
  induction visited as [|kv visited IH]; intros annotated Hin.
  - by apply elem_of_nil in Hin.
  - apply elem_of_cons in Hin as [<-|Hin]; simpl.
    + destruct annotated; simpl; apply updateLatest_step_Panics.
    + by apply IH.
Qed.

(** Without nil pointer the loop ends, having replaced [Latest] in every
    descriptor it visited and touched nothing else. *)
Lemma updateLatest_loop_Returns (visited : list (string * option extension))
    (c : gmap string extension) :
  NoDup visited.*1 →
  (∀ key, (key, None) ∉ visited) →
  ∃ c',
    foldl updateLatest_step (Returns c) visited = Returns c' ∧
    (∀ key wire, (key, Some wire) ∈ visited →
       c' !! key = Some (set_Latest (findLatest (Versions wire)) wire)) ∧
    (∀ key, key ∉ visited.*1 → c' !! key = c !! key).
Proof.
  revert c.
  induction visited as [|[k [e|]] visited IH]; intros c Hnodup Hnonnil.
  - exists c. split; [done|]. split; [|done].
    intros key wire []%elem_of_nil.
  - apply NoDup_cons in Hnodup as [Hk Hnodup]. simpl in Hk.
    destruct (IH (<[k := set_Latest (findLatest (Versions e)) e]> c))
      as (c' & Hrun & Hvisited & Hother); [done| |].
    { intros key Hin. apply (Hnonnil key). by right. }
    exists c'. split; [exact Hrun|]. split.
    + intros key wire [[= -> ->]|Hin]%elem_of_cons.
      * rewrite Hother by done. apply lookup_insert_eq.
      * by apply Hvisited.
    + intros key Hkey. simpl in Hkey.
      apply not_elem_of_cons in Hkey as [Hne Hkey].
      rewrite Hother by done. by apply lookup_insert_ne.
  - exfalso. apply (Hnonnil k). by left.
Qed.

Context {L : MapRangeLaws R}.

Lemma updateLatest_Returns (decoded : gmap string (option extension)) :
  (∀ key, decoded !! key ≠ Some None) →
  ∃ catalog,
    updateLatest decoded = Returns catalog ∧
    (∀ key wire, decoded !! key = Some (Some wire) →
       catalog !! key = Some (set_Latest (findLatest (Versions wire)) wire)) ∧
    (∀ key, decoded !! key = None → catalog !! key = None).
Proof.
  intros Hnonnil. unfold updateLatest.
  pose proof (map_range_perm _ decoded) as Hperm.
  destruct (updateLatest_loop_Returns (map_range decoded) ∅)
    as (c' & Hrun & Hvisited & Hother).
  - rewrite Hperm. apply NoDup_fst_map_to_list.
  - intros key Hin. rewrite Hperm in Hin.
    apply elem_of_map_to_list in Hin. by apply (Hnonnil key).
  - exists c'. split; [done|]. split.
    + intros key wire Hkey. apply Hvisited.
      rewrite Hperm. by apply elem_of_map_to_list.
    + intros key Hkey. rewrite Hother; [apply lookup_empty|].
      rewrite Hperm. intros Hin.
      apply list_elem_of_fmap in Hin as ([k v] & -> & Hin).
      apply elem_of_map_to_list in Hin. simpl in Hkey. congruence.
Qed.

Lemma updateLatest_Panics (decoded : gmap string (option extension))
    (key : string) :
  decoded !! key = Some None → updateLatest decoded = Panics.
Proof.
  intros Hkey. apply (updateLatest_loop_nil _ _ key).
  rewrite (map_range_perm _ decoded). by apply elem_of_map_to_list.
Qed.

End GetExtensionCatalogFacts.

(** C4. When the request is built, the exchange completes with status
    200 and the body decodes to a map of descriptors, the call returns a
    catalog and no error; the catalog has the keys of the decoded map,
    and under each key the decoded descriptor with [Latest] replaced by
    [findLatest] of its [Versions]. So every descriptor of the catalog
    has [Latest] equal to [findLatest] of its [Versions], whatever
    [Latest] was on the wire. *)
Theorem getExtensionCatalog_assigns_latest `{S : Semver} `{R : MapRange}
    {L : MapRangeLaws R} `{N : NetEnv}
    (ctx : context_Context) (url : string) (req : Request context_Context)
    (resp : Response) (decoded : gmap string (option extension)) :
  http_NewRequestWithContext ctx http_MethodGet url = inr req →
  Client_Do {| Timeout := httpRequestTimeout |}
            (Header_Set "User-Agent" "xk6-subcommand-explore" req) = inr resp →
  StatusCode resp = http_StatusOK →
  json_Decode (Body resp) = inr (Some decoded) →
  (∀ key, decoded !! key ≠ Some None) →
  ∃ catalog,
    getExtensionCatalog ctx url = Returns (Some catalog, None) ∧
    (∀ key wire, decoded !! key = Some (Some wire) →
       catalog !! key = Some (set_Latest (findLatest (Versions wire)) wire)) ∧
    (∀ key, decoded !! key = None → catalog !! key = None) ∧
    (∀ key ext, catalog !! key = Some ext →
       Latest ext = findLatest (Versions ext)).
Proof.
  intros Hreq Hdo Hstatus Hdecode Hnonnil.
  destruct (updateLatest_Returns decoded Hnonnil)
    as (catalog & Hrun & Hsome & Hnone).
  exists catalog. split; [|split; [done|split; [done|]]].
  - unfold getExtensionCatalog.
    rewrite Hreq, Hdo, Hstatus, Hdecode, Hrun. done.
  - intros key ext Hkey.
    destruct (decoded !! key) as [[wire|]|] eqn:Hwire.
    + rewrite (Hsome key wire Hwire) in Hkey. by injection Hkey as <-.
    + by destruct (Hnonnil key).
    + rewrite (Hnone key Hwire) in Hkey. done.
Qed.

(** C8, as the code has it. When the exchange completes with a status
    other than 200, the call returns no catalog and an error that wraps
    [errFetchExtensionCatalog] and whose text ends with the status line
    received; when the status is 200 and the decoder reports an error,
    the call returns no catalog and that error. *)
Theorem getExtensionCatalog_failure `{S : Semver} `{R : MapRange} `{N : NetEnv}
    (ctx : context_Context) (url : string) (req : Request context_Context)
    (resp : Response) :
  http_NewRequestWithContext ctx http_MethodGet url = inr req →
  Client_Do {| Timeout := httpRequestTimeout |}
            (Header_Set "User-Agent" "xk6-subcommand-explore" req) = inr resp →
  (StatusCode resp ≠ http_StatusOK →
   ∃ err,
     getExtensionCatalog ctx url = Returns (None, Some err) ∧
     errors_Is err errFetchExtensionCatalog = true ∧
     Error err = "failed to fetch extension catalog: " +:+ Status resp) ∧
  (StatusCode resp = http_StatusOK →
   ∀ err, json_Decode (Body resp) = inl err →
          getExtensionCatalog ctx url = Returns (None, Some err)).
Proof.
  intros Hreq Hdo. split.
  - intros Hstatus.
    exists (fmt_Errorf_w_s errFetchExtensionCatalog (Status resp)).
    split; [|split; reflexivity].
    unfold getExtensionCatalog. rewrite Hreq, Hdo.
    apply Z.eqb_neq in Hstatus. by rewrite Hstatus.
  - intros Hstatus err Hdecode.
    unfold getExtensionCatalog. rewrite Hreq, Hdo, Hstatus, Hdecode. done.
Qed.

Lemma SimNet_sample_catalog_nonnil (key : string) :
  SimNet.sample_catalog !! key ≠ Some None.
Proof.
  unfold SimNet.sample_catalog. intros H.
  apply lookup_insert_Some in H as [[_ [=]]|[_ H]].
  apply lookup_insert_Some in H as [[_ [=]]|[_ H]].
  by rewrite lookup_empty in H.
Qed.

Lemma getExtensionCatalog_assigns_latest_witness :
  ∃ catalog,
    @getExtensionCatalog ref_Semver listed_MapRange
      (SimNet.env SimNet.sample_world) SimNet.Background
      "http://registry/catalog.json" = Returns (Some catalog, None) ∧
    (∀ key wire, SimNet.sample_catalog !! key = Some (Some wire) →
       catalog !! key
       = Some (set_Latest (@findLatest ref_Semver (Versions wire)) wire)) ∧
    (∀ key, SimNet.sample_catalog !! key = None → catalog !! key = None) ∧
    (∀ key ext, catalog !! key = Some ext →
       Latest ext = @findLatest ref_Semver (Versions ext)).
Proof.
  apply (@getExtensionCatalog_assigns_latest ref_Semver listed_MapRange
           listed_MapRangeLaws (SimNet.env SimNet.sample_world)
           SimNet.Background "http://registry/catalog.json"
           (mkRequest SimNet.Background "GET" "http://registry/catalog.json" ∅)
           (mkResponse 200 "200 OK" "catalog") SimNet.sample_catalog).
  - reflexivity.
  - reflexivity.
  - reflexivity.
  - reflexivity.
  - exact SimNet_sample_catalog_nonnil.
Defined.

Lemma getExtensionCatalog_failure_witness :
  (∃ err,
     @getExtensionCatalog ref_Semver listed_MapRange
       (SimNet.env SimNet.sample_world) SimNet.Background
       "http://registry/missing" = Returns (None, Some err) ∧
     errors_Is err errFetchExtensionCatalog = true ∧
     Error err = "failed to fetch extension catalog: 404 Not Found") ∧
  @getExtensionCatalog ref_Semver listed_MapRange
    (SimNet.env SimNet.sample_world) SimNet.Background
    "http://registry/broken"
  = Returns (None, Some (errors_New
      "invalid character 'i' looking for beginning of value")).
Proof.
  split.
  - apply (@getExtensionCatalog_failure ref_Semver listed_MapRange
             (SimNet.env SimNet.sample_world)
             SimNet.Background "http://registry/missing"
             (mkRequest SimNet.Background "GET" "http://registry/missing" ∅)
             (mkResponse 404 "404 Not Found" "")); [reflexivity..|discriminate].
  - apply (@getExtensionCatalog_failure ref_Semver listed_MapRange
             (SimNet.env SimNet.sample_world)
             SimNet.Background "http://registry/broken"
             (mkRequest SimNet.Background "GET" "http://registry/broken" ∅)
             (mkResponse 200 "200 OK" "invalid json")); reflexivity.
Defined.

(** C8, as the specification words it, fails on the body [null]: it is
    not a JSON object, the decoder sets the map to nil for it and reports
    no error, as [encoding/json] documents for a JSON null, and the call
    returns neither catalog nor error. *)
Lemma getExtensionCatalog_null_body_counterexample :
  begins_JSON_object "null" = false ∧
  @json_Decode (SimNet.env null_world) "null" = inr None ∧
  @getExtensionCatalog ref_Semver listed_MapRange (SimNet.env null_world)
    SimNet.Background "http://registry/null" = Returns (None, None) ∧
  ¬ ∃ err,
      @getExtensionCatalog ref_Semver listed_MapRange (SimNet.env null_world)
        SimNet.Background "http://registry/null" = Returns (None, Some err).
Proof.
  split; [reflexivity|]. split; [reflexivity|]. split; [reflexivity|].
  intros [err Herr]. discriminate Herr.
Qed.

(** ** The test cases of the repository, on the implementations above *)

Example findLatest_test_single :
  @findLatest ref_Semver ["v0.4.4"] = "v0.4.4".
Proof. reflexivity. Qed.

Example findLatest_test_in_order :
  @findLatest ref_Semver ["v0.4.4"; "v0.4.3"; "v0.4.2"] = "v0.4.4".
Proof. reflexivity. Qed.

Example findLatest_test_out_of_order :
  @findLatest ref_Semver ["v0.4.2"; "v0.4.4"; "v0.4.3"] = "v0.4.4".
Proof. reflexivity. Qed.

Example findLatest_test_major :
  @findLatest ref_Semver ["v0.4.4"; "v1.0.0"; "v0.5.0"] = "v1.0.0".
Proof. reflexivity. Qed.

Example findLatest_test_prerelease :
  @findLatest ref_Semver ["v0.4.4"; "v0.5.0-beta.1"; "v0.4.3"] = "v0.5.0-beta.1".
Proof. reflexivity. Qed.

Example findLatest_test_patch :
  @findLatest ref_Semver ["v0.4.1"; "v0.4.10"; "v0.4.2"] = "v0.4.10".
Proof. reflexivity. Qed.

Example findLatest_test_invalid :
  @findLatest ref_Semver ["invalid"] = "".
Proof. reflexivity. Qed.

Example findLatest_test_first_invalid :
  @findLatest ref_Semver ["invalid"; "v0.4.4"; "v0.4.3"] = "".
Proof. reflexivity. Qed.

Example findLatest_test_mixed :
  @findLatest ref_Semver ["v0.4.4"; "invalid"; "v0.4.3"] = "v0.4.4".
Proof. reflexivity. Qed.

Example findLatest_test_all_invalid :
  @findLatest ref_Semver ["invalid"; "also-invalid"] = "".
Proof. reflexivity. Qed.

Example findLatest_test_no_prefix :
  @findLatest ref_Semver ["0.4.4"; "0.4.3"] = "0.4.4".
Proof. reflexivity. Qed.

Example kind_filter_test_nil :
  kind_filter None Sample.faker = true.
Proof. reflexivity. Qed.

Example kind_filter_test_javascript :
  kind_filter (Some kindJavaScript) Sample.faker = true ∧
  kind_filter (Some kindJavaScript) Sample.prometheus = false.
Proof. split; reflexivity. Qed.

Example kind_filter_test_inclusive :
  kind_filter (Some kindJavaScript) Sample.all_facets = true ∧
  kind_filter (Some kindOutput) Sample.all_facets = true ∧
  kind_filter (Some kindSubcommand) Sample.all_facets = true ∧
  extensionType Sample.all_facets = "JavaScript".
Proof. repeat split; reflexivity. Qed.

Example tier_filter_test_official :
  tier_filter (Some tierOfficial) Sample.faker = true ∧
  tier_filter (Some tierOfficial) Sample.dashboard = false ∧
  tier_filter (Some tierCommunity) Sample.dashboard = true ∧
  tier_filter (Some tierCommunity) Sample.faker = false.
Proof. repeat split; reflexivity. Qed.

Example extensionTier_untiered :
  extensionTier Sample.untiered = "Community" ∧
  tier_filter (Some tierCommunity) Sample.untiered = false.
Proof. split; reflexivity. Qed.

(** The end-to-end scenario of the specification: the fetch sets
    [Latest] of [a] to ["v1.0.0"], the filter without criteria drops the
    entry of k6, and the sorted list is [[a]]. *)
Example end_to_end :
  ∃ catalog,
    @getExtensionCatalog ref_Semver listed_MapRange
      (SimNet.env SimNet.sample_world) SimNet.Background
      "http://registry/catalog.json" = Returns (Some catalog, None) ∧
    @sortExtensions insertion_SortSlice
      (@filterExtensions listed_MapRange catalog "" "")
    = [set_Latest "v1.0.0" SimNet.ext_a].
Proof.
  eexists. split; vm_compute; reflexivity.
Qed.

Example getExtensionCatalog_canceled :
  ∃ err,
    @getExtensionCatalog ref_Semver listed_MapRange
      (SimNet.env SimNet.sample_world) SimNet.Canceled
      "http://registry/catalog.json"
    = Returns (None, Some err).
Proof. eexists. reflexivity. Qed.

Example getExtensionCatalog_invalid_url :
  ∃ err,
    @getExtensionCatalog ref_Semver listed_MapRange
      (SimNet.env SimNet.sample_world) SimNet.Background "://invalid-url"
    = Returns (None, Some err).
Proof. eexists. reflexivity. Qed.

(* ===================================================================== *)
(** * Part III: further properties of the code                            *)
(* ===================================================================== *)

(** ** options.go: Set, String and the filters *)

(** X1. [Set] accepts exactly the values of [kindValues], the list shown in
    the usage text of the flag. An accepted value is stored, and [String]
    reads it back; a rejected one leaves the value as it was and gives
    [errInvalidKind]. *)
Theorem kind_Set_accepts_kindValues (k : kind) (s : string) :
  (s ∈ kindValues ∧
   kind_Set (Some k) s = Returns (Some s, None) ∧
   kind_String (Some s) = s) ∨
  ((s ∉ kindValues) ∧
   kind_Set (Some k) s = Returns (Some k, Some errInvalidKind)).
Proof.
  unfold kind_Set, kindValues.
  destruct (String.eqb_spec s kindJavaScript) as [->|H1].
  { left. split; [apply elem_of_cons; by left|done]. }
  destruct (String.eqb_spec s kindOutput) as [->|H2].
  { left. split; [do 1 apply list_elem_of_further; apply elem_of_cons; by left|done]. }
  destruct (String.eqb_spec s kindSubcommand) as [->|H3].
  { left. split; [do 2 apply list_elem_of_further; apply elem_of_cons; by left|done]. }
  right. split; [|done].
  intros [?|[?|[?|[]%elem_of_nil]%elem_of_cons]%elem_of_cons]%elem_of_cons;
    congruence.
Qed.

(** X2. The same for [tier] and [tierValues]. *)
Theorem tier_Set_accepts_tierValues (t : tier) (s : string) :
  (s ∈ tierValues ∧
   tier_Set (Some t) s = Returns (Some s, None) ∧
   tier_String (Some s) = s) ∨
  ((s ∉ tierValues) ∧
   tier_Set (Some t) s = Returns (Some t, Some errInvalidTier)).
Proof.
  unfold tier_Set, tierValues.
  destruct (String.eqb_spec s tierOfficial) as [->|H1].
  { left. split; [apply elem_of_cons; by left|done]. }
  destruct (String.eqb_spec s tierCommunity) as [->|H2].
  { left. split; [do 1 apply list_elem_of_further; apply elem_of_cons; by left|done]. }
  right. split; [|done].
  intros [?|[?|[]%elem_of_nil]%elem_of_cons]%elem_of_cons; congruence.
Qed.

Lemma kind_Set_Returns_ok (k : option kind) (s : string) (k' : option kind) :
  kind_Set k s = Returns (k', None) →
  k' = Some s ∧ (s = kindJavaScript ∨ s = kindOutput ∨ s = kindSubcommand).
Proof.
  unfold kind_Set.
  destruct (String.eqb_spec s kindJavaScript) as [->|H1]; simpl.
  { destruct k; [|done]. intros [= <-]. auto. }
  destruct (String.eqb_spec s kindOutput) as [->|H2]; simpl.
  { destruct k; [|done]. intros [= <-]. auto. }
  destruct (String.eqb_spec s kindSubcommand) as [->|H3]; simpl.
  { destruct k; [|done]. intros [= <-]. auto. }
  done.
Qed.

(** X3. A kind that [Set] has accepted never reaches the [default] branch of
    [filter]: the filter passes a descriptor exactly when the facet named
    by the flag is populated, and so rejects every descriptor without
    facet. *)
Theorem kind_Set_then_filter (k : option kind) (s : string) (k' : option kind)
    (ext : extension) :
  kind_Set k s = Returns (k', None) →
  (kind_filter k' ext = true ↔
   (s = "javascript" ∧ Imports ext ≠ []) ∨
   (s = "output" ∧ Outputs ext ≠ []) ∨
   (s = "subcommand" ∧ Subcommands ext ≠ [])) ∧
  (extensionType ext = "" → kind_filter k' ext = false).
Proof.
  intros Hset. apply kind_Set_Returns_ok in Hset as [-> Hs].
  assert (∀ l : list string, bool_decide (0 < length l) = true ↔ l ≠ []) as Hlen.
  { intros l. rewrite bool_decide_eq_true. destruct l; simpl; split; try done; lia. }
  unfold extensionType.
  destruct Hs as [-> | [-> | ->]]; simpl; rewrite Hlen; (split; [split|]).
  - intros ?. left. done.
  - intros [[_ ?]|[[[=] _]|[[=] _]]]. done.
  - destruct (bool_decide (0 < length (Imports ext))),
      (bool_decide (0 < length (Outputs ext))),
      (bool_decide (0 < length (Subcommands ext))); done.
  - intros ?. right. left. done.
  - intros [[[=] _]|[[_ ?]|[[=] _]]]. done.
  - destruct (bool_decide (0 < length (Imports ext))),
      (bool_decide (0 < length (Outputs ext))),
      (bool_decide (0 < length (Subcommands ext))); done.
  - intros ?. right. right. done.
  - intros [[[=] _]|[[[=] _]|[_ ?]]]. done.
  - destruct (bool_decide (0 < length (Imports ext))),
      (bool_decide (0 < length (Outputs ext))),
      (bool_decide (0 < length (Subcommands ext))); done.
Qed.

Lemma kind_Set_then_filter_witness :
  kind_Set (Some "") "output" = Returns (Some "output", None) ∧
  (kind_filter (Some "output") Sample.bare = true ↔
   ("output" = "javascript" ∧ Imports Sample.bare ≠ []) ∨
   ("output" = "output" ∧ Outputs Sample.bare ≠ []) ∨
   ("output" = "subcommand" ∧ Subcommands Sample.bare ≠ [])) ∧
  (extensionType Sample.bare = "" → kind_filter (Some "output") Sample.bare = false).
Proof.
  split; [reflexivity|].
  apply (kind_Set_then_filter (Some "") "output" (Some "output") Sample.bare).
  reflexivity.
Defined.

(** X4. The type a descriptor is displayed with is the first kind filter it
    passes, in the order javascript, output, subcommand; it is displayed
    without type exactly when it passes none. *)
Theorem extensionType_first_kind_filter (ext : extension) :
  (extensionType ext = "JavaScript" ↔
   kind_filter (Some kindJavaScript) ext = true) ∧
  (extensionType ext = "Output" ↔
   kind_filter (Some kindJavaScript) ext = false ∧
   kind_filter (Some kindOutput) ext = true) ∧
  (extensionType ext = "Subcommand" ↔
   kind_filter (Some kindJavaScript) ext = false ∧
   kind_filter (Some kindOutput) ext = false ∧
   kind_filter (Some kindSubcommand) ext = true) ∧
  (extensionType ext = "" ↔
   kind_filter (Some kindJavaScript) ext = false ∧
   kind_filter (Some kindOutput) ext = false ∧
   kind_filter (Some kindSubcommand) ext = false).
Proof.
  unfold extensionType. simpl.
  destruct (bool_decide (0 < length (Imports ext)));
    destruct (bool_decide (0 < length (Outputs ext)));
    destruct (bool_decide (0 < length (Subcommands ext)));
    repeat split; try done; intros; destruct_and?; done.
Qed.

(** X5. The official filter and the display agree; the community filter and
    the display do not: every descriptor that does not pass the official
    filter is displayed as community, and only those whose tier is the
    string ["community"] pass the community filter. *)
Theorem extensionTier_tier_filter (ext : extension) :
  (extensionTier ext = "Official" ↔ tier_filter (Some tierOfficial) ext = true) ∧
  (extensionTier ext = "Community" ↔ tier_filter (Some tierOfficial) ext = false) ∧
  (tier_filter (Some tierCommunity) ext = true ↔ Tier ext = "community").
Proof.
  unfold extensionTier. simpl.
  repeat split.
  - destruct (Tier ext =? "official"); done.
  - destruct (Tier ext =? "official"); done.
  - destruct (Tier ext =? "official"); done.
  - destruct (Tier ext =? "official"); done.
  - apply String.eqb_eq.
  - apply String.eqb_eq.
Qed.

(** ** cmd.go: what filterExtensions returns *)

Lemma filterExtensions_keeps_absent (k : kind) (t : tier) (ext : extension) :
  filterExtensions_keeps k t ext = true → filterExtensions_keeps "" "" ext = true.
Proof.
  unfold filterExtensions_keeps.
  rewrite kind_filter_absent, tier_filter_absent.
  intros [? _]%andb_true_iff. by rewrite andb_true_r.
Qed.

(** The loop is a filter of the values in the order of the visit. *)
Lemma filterExtensions_loop_filter (k : kind) (t : tier)
    (visited : list (string * extension)) (filtered : list extension) :
  foldl (filterExtensions_step k t) filtered visited
  = filtered ++ filter (λ e, filterExtensions_keeps k t e = true) visited.*2.
Proof.
  revert filtered.
  induction visited as [|[key e] visited IH]; intros filtered; cbn [foldl].
  - simpl. by rewrite app_nil_r.
  - rewrite IH. rewrite fmap_cons, filter_cons. cbn [snd].
    assert (filterExtensions_step k t filtered (key, e)
            = if filterExtensions_keeps k t e then filtered ++ [e] else filtered)
      as ->.
    { unfold filterExtensions_step, filterExtensions_keeps. cbn [snd].
      destruct (Module_ e =? "go.k6.io/k6"); [done|]. simpl.
      destruct (kind_filter (Some k) e && tier_filter (Some t) e); done. }
    destruct (filterExtensions_keeps k t e) eqn:Hkeep.
    + rewrite decide_True by done. by rewrite <-app_assoc.
    + rewrite decide_False by done. done.
Qed.

Lemma filterExtensions_filter `{R : MapRange} (catalog : gmap string extension)
    (k : kind) (t : tier) :
  filterExtensions catalog k t
  = filter (λ e, filterExtensions_keeps k t e = true) (map_range catalog).*2.
Proof. unfold filterExtensions. by rewrite filterExtensions_loop_filter. Qed.

(** X6. Every entry of the catalog that is not the entry of k6 and passes
    both filters is in the result once, and nothing else is: the result
    is, up to its order, the filter of the values of the map. So it is
    never longer than the catalog has entries. *)
Theorem filterExtensions_once_each `{R : MapRange} {L : MapRangeLaws R}
    (catalog : gmap string extension) (k : kind) (t : tier) :
  filterExtensions catalog k t
    ≡ₚ filter (λ e, filterExtensions_keeps k t e = true) (map_to_list catalog).*2 ∧
  (length (filterExtensions catalog k t) ≤ size catalog)%nat.
Proof.
  rewrite filterExtensions_filter.
  pose proof (map_range_perm _ catalog) as Hperm.
  split.
  - by rewrite Hperm.
  - etrans; [apply length_filter|].
    rewrite length_fmap, Hperm. by rewrite length_map_to_list.
Qed.

Lemma filterExtensions_once_each_witness :
  MapRangeLaws listed_MapRange ∧
  @filterExtensions listed_MapRange Sample.catalog kindJavaScript tierOfficial
    ≡ₚ filter (λ e, filterExtensions_keeps kindJavaScript tierOfficial e = true)
         (map_to_list Sample.catalog).*2 ∧
  (length (@filterExtensions listed_MapRange Sample.catalog
             kindJavaScript tierOfficial) ≤ size Sample.catalog)%nat.
Proof.
  split; [exact listed_MapRangeLaws|].
  apply (@filterExtensions_once_each listed_MapRange listed_MapRangeLaws).
Defined.

(** X7. Setting a filter only removes descriptors: the result under any
    filters is the result without filters with some of its elements left
    out, the others in the same order. *)
Theorem filterExtensions_narrows `{R : MapRange}
    (catalog : gmap string extension) (k : kind) (t : tier) :
  filterExtensions catalog k t `sublist_of` filterExtensions catalog "" "".
Proof.
  rewrite !filterExtensions_filter.
  rewrite <-(list_filter_filter_l
               (λ e, filterExtensions_keeps k t e = true)
               (λ e, filterExtensions_keeps "" "" e = true)).
  - apply sublist_filter.
  - intros e. apply filterExtensions_keeps_absent.
Qed.

Lemma filterExtensions_keeps_tier (k : kind) (t : tier) (e : extension) :
  t = tierOfficial ∨ t = tierCommunity →
  filterExtensions_keeps k t e = true ↔
  filterExtensions_keeps k "" e = true ∧ Tier e = t.
Proof.
  unfold filterExtensions_keeps. rewrite tier_filter_absent.
  intros [-> | ->]; simpl; rewrite !andb_true_iff, String.eqb_eq; tauto.
Qed.

Lemma filter_tier_split (k : kind) (l : list extension) :
  filter (λ e, filterExtensions_keeps k "" e = true) l
  ≡ₚ filter (λ e, filterExtensions_keeps k tierOfficial e = true) l ++
     filter (λ e, filterExtensions_keeps k tierCommunity e = true) l ++
     filter (λ e, Tier e ≠ "official" ∧ Tier e ≠ "community")
       (filter (λ e, filterExtensions_keeps k "" e = true) l).
Proof.
  induction l as [|e l IH]; [done|].
  pose proof (filterExtensions_keeps_tier k tierOfficial e (or_introl eq_refl))
    as Hoff.
  pose proof (filterExtensions_keeps_tier k tierCommunity e (or_intror eq_refl))
    as Hcom.
  rewrite !(filter_cons _ e l).
  destruct (decide (filterExtensions_keeps k "" e = true)) as [H0|H0].
  - rewrite filter_cons.
    destruct (decide (filterExtensions_keeps k tierOfficial e = true)) as [H1|H1].
    + apply Hoff in H1 as [_ H1].
      rewrite decide_False by (rewrite Hcom, H1; intros [_ ?]; done).
      rewrite decide_False by (intros [? _]; done).
      simpl. by rewrite <-IH.
    + destruct (decide (filterExtensions_keeps k tierCommunity e = true))
        as [H2|H2].
      * apply Hcom in H2 as [_ H2].
        rewrite decide_False by (intros [_ ?]; done).
        simpl. rewrite <-Permutation_middle. by rewrite <-IH.
      * rewrite decide_True.
        -- rewrite <-!Permutation_middle. by rewrite <-IH.
        -- split; intros Ht; [apply H1, Hoff|apply H2, Hcom]; done.
  - rewrite decide_False by (rewrite Hoff; intros [? _]; done).
    rewrite decide_False by (rewrite Hcom; intros [? _]; done).
    exact IH.
Qed.

(** X8. Without tier filter the result is made of the result under the
    official filter, the result under the community filter, and the
    descriptors whose tier is neither: the two tier filters never overlap,
    and what they both leave out is what has no recognised tier. *)
Theorem filterExtensions_tier_split `{R : MapRange}
    (catalog : gmap string extension) (k : kind) :
  filterExtensions catalog k ""
  ≡ₚ filterExtensions catalog k tierOfficial ++
     filterExtensions catalog k tierCommunity ++
     filter (λ e, Tier e ≠ "official" ∧ Tier e ≠ "community")
       (filterExtensions catalog k "").
Proof. rewrite !filterExtensions_filter. apply filter_tier_split. Qed.

(** ** cmd.go: the order of sortExtensions *)

(** X10. The closure given to [sort.Slice] is a transitive ordering, as the
    package requires of it: nothing is less than itself, less is
    transitive, and so is "neither is less". *)
Theorem sortExtensions_less_transitive_ordering :
  StrictWeakOrder sortExtensions_less.
Proof. exact sortExtensions_less_StrictWeakOrder. Qed.

(** X11. Two descriptors are left in either order by the closure exactly when
    they have the same tier, the same kind label and the same module; all
    other fields play no part in the order. *)
Theorem sortExtensions_less_ties (a b : extension) :
  sortExtensions_less a b = false ∧ sortExtensions_less b a = false ↔
  Tier a = Tier b ∧ extensionType a = extensionType b ∧ Module_ a = Module_ b.
Proof.
  split.
  - intros [Hab Hba]. by apply sortExtensions_less_equal_keys.
  - intros (Ht & Hk & Hm).
    rewrite !sortExtensions_less_cmp.
    unfold sortExtensions_cmp, cmp_lex. rewrite Ht, Hk, Hm.
    rewrite !(cmp_refl _ string_compare_CmpOrder). done.
Qed.

(** X12. The list that is displayed does not depend on the order in which the
    map is visited, nor on which sort is used, when no two descriptors of
    the catalog that differ have the same module: two runs of filter and
    sort give the same list. *)
Theorem sort_filter_deterministic (S1 S2 : SortSlice) (R1 R2 : MapRange)
    (catalog : gmap string extension) (k : kind) (t : tier) :
  SortSliceLaws S1 → SortSliceLaws S2 → MapRangeLaws R1 → MapRangeLaws R2 →
  (∀ key1 key2 e1 e2,
     catalog !! key1 = Some e1 → catalog !! key2 = Some e2 →
     Module_ e1 = Module_ e2 → e1 = e2) →
  @sortExtensions S1 (@filterExtensions R1 catalog k t)
  = @sortExtensions S2 (@filterExtensions R2 catalog k t).
Proof.
  intros LS1 LS2 LR1 LR2 Hmod.
  apply (StronglySorted_unique_strong (not_after sortExtensions_less)).
  - intros a b Ha Hb Hab Hba.
    unfold sortExtensions in Ha, Hb.
    rewrite (@sort_Slice_perm S1 LS1) in Ha.
    rewrite (@sort_Slice_perm S2 LS2) in Hb.
    apply (@elem_of_filterExtensions R1 LR1) in Ha as ([key1 Ha] & _).
    apply (@elem_of_filterExtensions R2 LR2) in Hb as ([key2 Hb] & _).
    destruct (sortExtensions_less_equal_keys a b) as (_ & _ & Hm); [done..|].
    by apply (Hmod key1 key2).
  - apply (@sortExtensions_sorted S1 LS1).
  - apply (@sortExtensions_sorted S2 LS2).
  - unfold sortExtensions.
    rewrite (@sort_Slice_perm S1 LS1), (@sort_Slice_perm S2 LS2).
    rewrite !filterExtensions_filter.
    by rewrite (@map_range_perm R1 LR1), (@map_range_perm R2 LR2).
Qed.

Lemma Sample_catalog_modules (key1 key2 : string) (e1 e2 : extension) :
  Sample.catalog !! key1 = Some e1 → Sample.catalog !! key2 = Some e2 →
  Module_ e1 = Module_ e2 → e1 = e2.
Proof.
  unfold Sample.catalog. simpl.
  intros H1 H2.
  repeat (apply lookup_insert_Some in H1 as [[_ <-]|[_ H1]]);
    try (by rewrite lookup_empty in H1);
    repeat (apply lookup_insert_Some in H2 as [[_ <-]|[_ H2]]);
    try (by rewrite lookup_empty in H2); done.
Qed.

Lemma reversed_MapRangeLaws : MapRangeLaws reversed_MapRange.
Proof. intros V m. apply reverse_Permutation. Qed.

Lemma sort_filter_deterministic_witness :
  @sortExtensions insertion_SortSlice
    (@filterExtensions listed_MapRange Sample.catalog "" "")
  = @sortExtensions insertion_SortSlice
      (@filterExtensions reversed_MapRange Sample.catalog "" "").
Proof.
  apply (sort_filter_deterministic insertion_SortSlice insertion_SortSlice
           listed_MapRange reversed_MapRange Sample.catalog "" ""
           insertion_SortSliceLaws insertion_SortSliceLaws
           listed_MapRangeLaws reversed_MapRangeLaws Sample_catalog_modules).
Defined.

(** ** catalog.go: more on findLatest *)

Section FindLatestMore.
Context `{S : Semver} {L : SemverLaws S}.

(** X14. The result stands for the whole list it was computed from: the latest
    of a list that is extended is the latest of the old result and the new
    entries. In particular the result, given back alone, is returned as
    it is. *)
Theorem findLatest_incremental (v0 : string) (l1 l2 : list string)
    (ver0 : Version) :
  NewVersion v0 = Some ver0 →
  findLatest (v0 :: l1 ++ l2) = findLatest (findLatest (v0 :: l1) :: l2) ∧
  findLatest [findLatest (v0 :: l1)] = findLatest (v0 :: l1).
Proof.
  intros H0.
  assert (NewVersion (findLatest (v0 :: l1))
          = Some (foldl findLatest_step ver0 l1)) as Hw.
  { destruct (findLatest_loop_max l1 [v0] ver0) as [(s & _ & Hs) _].
    - exists v0. split; [by apply list_elem_of_singleton|done].
    - intros s v ->%list_elem_of_singleton Hp.
      rewrite H0 in Hp. injection Hp as <-. apply GreaterThan_irrefl.
    - simpl. rewrite H0. by rewrite (Original_NewVersion s _ Hs). }
  assert (∀ l, findLatest (v0 :: l) = Original (foldl findLatest_step ver0 l))
    as Hfl by (intros l; simpl; by rewrite H0).
  rewrite (Hfl (l1 ++ l2)), foldl_app.
  remember (findLatest (v0 :: l1)) as w eqn:Ew.
  simpl. rewrite Hw. simpl. by rewrite Ew, Hfl.
Qed.

Context {W : SemverWeakOrder S}.

Lemma findLatest_loop_first (rest pre : list string) (w : string)
    (mid : list string) (latest : Version) :
  NewVersion w = Some latest →
  (∀ s v, s ∈ pre → NewVersion s = Some v → GreaterThan latest v = true) →
  (∀ s v, s ∈ mid → NewVersion s = Some v → GreaterThan v latest = false) →
  ∃ pre' w' post',
    pre ++ w :: mid ++ rest = pre' ++ w' :: post' ∧
    NewVersion w' = Some (foldl findLatest_step latest rest) ∧
    (∀ s v, s ∈ pre' → NewVersion s = Some v →
            GreaterThan (foldl findLatest_step latest rest) v = true) ∧
    (∀ s v, s ∈ post' → NewVersion s = Some v →
            GreaterThan v (foldl findLatest_step latest rest) = false).
Proof.
  revert pre w mid latest.
  induction rest as [|x rest IH]; intros pre w mid latest Hw Hpre Hmid.
  - exists pre, w, mid. rewrite app_nil_r. done.
  - cbn [foldl]. unfold findLatest_step at 2 4 6.
    destruct (NewVersion x) as [ver|] eqn:Hx;
      [destruct (GreaterThan ver latest) eqn:Hgt|].
    + destruct (IH (pre ++ w :: mid) x [] ver) as (pre' & w' & post' & Heq & H);
        [done| |intros s v []%elem_of_nil|].
      * intros s v [Hs|[->|Hs]%elem_of_cons]%elem_of_app Hp.
        -- by apply (GreaterThan_trans ver latest v), (Hpre s).
        -- rewrite Hw in Hp. by injection Hp as <-.
        -- destruct (GreaterThan ver v) eqn:Hv; [done|].
           rewrite (GreaterThan_equiv_trans ver v latest Hv (Hmid s v Hs Hp)) in Hgt.
           done.
      * exists pre', w', post'. split; [|done].
        rewrite <-Heq. simpl. by rewrite <-app_assoc.
    + destruct (IH pre w (mid ++ [x]) latest) as (pre' & w' & post' & Heq & H);
        [done|done| |].
      * intros s v [Hs| ->%list_elem_of_singleton]%elem_of_app Hp.
        -- by apply (Hmid s).
        -- rewrite Hx in Hp. by injection Hp as <-.
      * exists pre', w', post'. split; [|done].
        rewrite <-Heq. by rewrite <-app_assoc.
    + destruct (IH pre w (mid ++ [x]) latest) as (pre' & w' & post' & Heq & H);
        [done|done| |].
      * intros s v [Hs| ->%list_elem_of_singleton]%elem_of_app Hp.
        -- by apply (Hmid s).
        -- rewrite Hx in Hp. done.
      * exists pre', w', post'. split; [|done].
        rewrite <-Heq. by rewrite <-app_assoc.
Qed.

(** X15. Among entries of equal precedence the first one listed wins: the
    result stands at a place in the list before which every entry that
    parses is strictly smaller, and after which none is greater. *)
Theorem findLatest_first_maximum (v0 : string) (rest : list string)
    (ver0 : Version) :
  NewVersion v0 = Some ver0 →
  ∃ pre post winner,
    v0 :: rest = pre ++ findLatest (v0 :: rest) :: post ∧
    NewVersion (findLatest (v0 :: rest)) = Some winner ∧
    (∀ s v, s ∈ pre → NewVersion s = Some v → GreaterThan winner v = true) ∧
    (∀ s v, s ∈ post → NewVersion s = Some v → GreaterThan v winner = false).
Proof.
  intros H0.
  destruct (findLatest_loop_first rest [] v0 [] ver0)
    as (pre & w & post & Heq & Hw & Hpre & Hpost);
    [done|intros s v []%elem_of_nil..|].
  exists pre, post, (foldl findLatest_step ver0 rest).
  simpl in Heq. cbn [findLatest]. rewrite H0.
  rewrite (Original_NewVersion w _ Hw). done.
Qed.

End FindLatestMore.

Lemma ref_SemverWeakOrder : SemverWeakOrder ref_Semver.
Proof.
  pose proof SemverRef_Compare_CmpOrder as Hc.
  intros a b c. simpl. unfold SemverRef.GreaterThan.
  intros Hab Hbc.
  destruct (SemverRef.Compare a c) eqn:E; try done. exfalso.
  apply (cmp_le_trans _ Hc a b c); [| |done].
  - destruct (SemverRef.Compare a b); done.
  - destruct (SemverRef.Compare b c); done.
Qed.

Lemma findLatest_incremental_witness :
  @NewVersion ref_Semver "v0.4.2" = Some (SemverRef.mkVersion 0 4 2 "" "" "v0.4.2") ∧
  @findLatest ref_Semver ("v0.4.2" :: ["v0.4.4"] ++ ["bad"; "v0.4.3"])
  = @findLatest ref_Semver
      (@findLatest ref_Semver ("v0.4.2" :: ["v0.4.4"]) :: ["bad"; "v0.4.3"]) ∧
  @findLatest ref_Semver [@findLatest ref_Semver ("v0.4.2" :: ["v0.4.4"])]
  = @findLatest ref_Semver ("v0.4.2" :: ["v0.4.4"]).
Proof.
  split; [reflexivity|].
  apply (@findLatest_incremental ref_Semver ref_SemverLaws "v0.4.2"
           ["v0.4.4"] ["bad"; "v0.4.3"]
           (SemverRef.mkVersion 0 4 2 "" "" "v0.4.2")).
  reflexivity.
Defined.

Lemma findLatest_first_maximum_witness :
  @NewVersion ref_Semver "v0.9.0" = Some (SemverRef.mkVersion 0 9 0 "" "" "v0.9.0") ∧
  ∃ pre post winner,
    "v0.9.0" :: ["1.0.0"; "v1.0.0"; "v1.0.0+build"]
    = pre ++ @findLatest ref_Semver
               ("v0.9.0" :: ["1.0.0"; "v1.0.0"; "v1.0.0+build"]) :: post ∧
    @NewVersion ref_Semver
      (@findLatest ref_Semver ("v0.9.0" :: ["1.0.0"; "v1.0.0"; "v1.0.0+build"]))
    = Some winner ∧
    (∀ s v, s ∈ pre → @NewVersion ref_Semver s = Some v →
            @GreaterThan ref_Semver winner v = true) ∧
    (∀ s v, s ∈ post → @NewVersion ref_Semver s = Some v →
            @GreaterThan ref_Semver v winner = false).
Proof.
  split; [reflexivity|].
  apply (@findLatest_first_maximum ref_Semver ref_SemverLaws ref_SemverWeakOrder
           "v0.9.0" ["1.0.0"; "v1.0.0"; "v1.0.0+build"]
           (SemverRef.mkVersion 0 9 0 "" "" "v0.9.0")).
  reflexivity.
Defined.

Example findLatest_equal_precedence :
  @findLatest ref_Semver ["v0.9.0"; "1.0.0"; "v1.0.0"; "v1.0.0+build"] = "1.0.0".
Proof. reflexivity. Qed.

(** ** catalog.go: more on getExtensionCatalog *)

Section GetExtensionCatalogMore.
Context `{S : Semver} `{R : MapRange} `{N : NetEnv}.

Lemma updateLatest_loop_Latest (visited : list (string * option extension))
    (c c' : gmap string extension) :
  foldl updateLatest_step (Returns c) visited = Returns c' →
  (∀ key ext, c !! key = Some ext → Latest ext = findLatest (Versions ext)) →
  ∀ key ext, c' !! key = Some ext → Latest ext = findLatest (Versions ext).
Proof.
  revert c.
  induction visited as [|[k [e|]] visited IH]; intros c Hrun Hc.
  - simpl in Hrun. injection Hrun as <-. done.
  - simpl in Hrun. apply (IH _ Hrun).
    intros key ext [[_ <-]|[_ Hkey]]%lookup_insert_Some; [done|].
    by apply (Hc key).
  - simpl in Hrun. by rewrite updateLatest_step_Panics in Hrun.
Qed.

(** X16. Whatever comes back, a catalog and an error never come together; and
    an error that comes back is the one of the call that failed, passed
    on as it is, or the wrapper of [errFetchExtensionCatalog] made from
    the status line. *)
Theorem getExtensionCatalog_error_sources (ctx : context_Context)
    (url : string) (catalog : option (gmap string extension)) (err : error) :
  getExtensionCatalog ctx url = Returns (catalog, Some err) →
  catalog = None ∧
  (http_NewRequestWithContext ctx http_MethodGet url = inl err ∨
   ∃ req,
     http_NewRequestWithContext ctx http_MethodGet url = inr req ∧
     (Client_Do {| Timeout := httpRequestTimeout |}
                (Header_Set "User-Agent" "xk6-subcommand-explore" req) = inl err ∨
      ∃ resp,
        Client_Do {| Timeout := httpRequestTimeout |}
                  (Header_Set "User-Agent" "xk6-subcommand-explore" req)
        = inr resp ∧
        ((StatusCode resp ≠ http_StatusOK ∧
          err = fmt_Errorf_w_s errFetchExtensionCatalog (Status resp)) ∨
         (StatusCode resp = http_StatusOK ∧
          json_Decode (Body resp) = inl err)))).
Proof.
  unfold getExtensionCatalog.
  destruct (http_NewRequestWithContext ctx http_MethodGet url) as [e|req].
  { intros [= <- <-]. split; [done|by left]. }
  destruct (Client_Do _ _) as [e|resp] eqn:Hdo.
  { intros [= <- <-]. split; [done|]. right. exists req. split; [done|by left]. }
  destruct (Z.eqb_spec (StatusCode resp) http_StatusOK) as [Hok|Hok]; simpl.
  - destruct (json_Decode (Body resp)) as [e|[decoded|]] eqn:Hdec.
    + intros [= <- <-]. split; [done|]. right. exists req. split; [done|].
      right. exists resp. split; [done|]. by right.
    + destruct (updateLatest decoded); done.
    + done.
  - intros [= <- <-]. split; [done|]. right. exists req. split; [done|].
    right. exists resp. split; [done|]. by left.
Qed.

(** X17. Neither catalog nor error comes back in one case only: the exchange
    succeeded with status 200 and the decoder left the map nil without
    reporting an error. *)
Theorem getExtensionCatalog_nil_nil (ctx : context_Context) (url : string) :
  getExtensionCatalog ctx url = Returns (None, None) ↔
  ∃ req resp,
    http_NewRequestWithContext ctx http_MethodGet url = inr req ∧
    Client_Do {| Timeout := httpRequestTimeout |}
              (Header_Set "User-Agent" "xk6-subcommand-explore" req) = inr resp ∧
    StatusCode resp = http_StatusOK ∧
    json_Decode (Body resp) = inr None.
Proof.
  unfold getExtensionCatalog. split.
  - destruct (http_NewRequestWithContext ctx http_MethodGet url) as [e|req];
      [done|].
    destruct (Client_Do _ _) as [e|resp] eqn:Hdo; [done|].
    destruct (Z.eqb_spec (StatusCode resp) http_StatusOK) as [Hok|Hok]; simpl;
      [|done].
    destruct (json_Decode (Body resp)) as [e|[decoded|]] eqn:Hdec; [done| |].
    + destruct (updateLatest decoded); done.
    + intros _. by exists req, resp.
  - intros (req & resp & -> & -> & -> & ->). done.
Qed.

Context {L : MapRangeLaws R}.

(** X18. With status 200 and a body that decodes to a map, the call panics
    exactly when a value of the map is a nil pointer. *)
Theorem getExtensionCatalog_panics_iff (ctx : context_Context) (url : string)
    (req : Request context_Context) (resp : Response)
    (decoded : gmap string (option extension)) :
  http_NewRequestWithContext ctx http_MethodGet url = inr req →
  Client_Do {| Timeout := httpRequestTimeout |}
            (Header_Set "User-Agent" "xk6-subcommand-explore" req) = inr resp →
  StatusCode resp = http_StatusOK →
  json_Decode (Body resp) = inr (Some decoded) →
  getExtensionCatalog ctx url = Panics ↔ ∃ key, decoded !! key = Some None.
Proof.
  intros Hreq Hdo Hstatus Hdecode.
  unfold getExtensionCatalog. rewrite Hreq, Hdo, Hstatus, Hdecode. simpl.
  split.
  - intros Hrun.
    destruct (decide (map_Forall (λ _ p, p ≠ None) decoded)) as [Hall|Hnot].
    + destruct (updateLatest_Returns decoded) as (c & Hc & _).
      { intros key Hkey. by apply (Hall key None). }
      rewrite Hc in Hrun. done.
    + apply map_not_Forall in Hnot as (key & p & Hkey & Hp); [|apply _].
      exists key. destruct p; [|done]. by destruct Hp.
  - intros [key Hkey]. by rewrite (updateLatest_Panics decoded key).
Qed.

Context {LS : SemverLaws S}.

Lemma findLatest_empty_or_elem (versions : list string) :
  findLatest versions = "" ∨ findLatest versions ∈ versions.
Proof.
  destruct versions as [|v0 rest]; [by left|].
  destruct (NewVersion v0) as [ver0|] eqn:H0.
  - right.
    destruct (findLatest_winner v0 rest ver0 H0) as (w & -> & (s & Hs & Hp) & _).
    by rewrite (Original_NewVersion s w Hp).
  - left. simpl. by rewrite H0.
Qed.

(** X19. Every descriptor that is listed after a fetch carries, as its latest
    version, [findLatest] of its own versions: the empty string or one of
    them. *)
Theorem fetched_filtered_latest (ctx : context_Context) (url : string)
    (catalog : gmap string extension) (k : kind) (t : tier) :
  getExtensionCatalog ctx url = Returns (Some catalog, None) →
  Forall (λ ext, Latest ext = findLatest (Versions ext) ∧
                 (Latest ext = "" ∨ Latest ext ∈ Versions ext))
         (filterExtensions catalog k t).
Proof.
  intros Hrun.
  assert (∀ key ext, catalog !! key = Some ext →
                     Latest ext = findLatest (Versions ext)) as Hlatest.
  { unfold getExtensionCatalog in Hrun.
    destruct (http_NewRequestWithContext ctx http_MethodGet url); [done|].
    destruct (Client_Do _ _) as [|resp]; [done|].
    destruct (negb _); [done|].
    destruct (json_Decode (Body resp)) as [|[decoded|]]; [done| |done].
    destruct (updateLatest decoded) as [c|] eqn:Hc; [|done].
    injection Hrun as <-.
    apply (updateLatest_loop_Latest _ ∅ c Hc).
    intros key ext Hkey. by rewrite lookup_empty in Hkey. }
  apply Forall_forall. intros ext Hext.
  apply elem_of_filterExtensions in Hext as ([key Hkey] & _).
  pose proof (Hlatest key ext Hkey) as ->.
  split; [done|]. apply findLatest_empty_or_elem.
Qed.

End GetExtensionCatalogMore.

Lemma getExtensionCatalog_error_sources_witness :
  @getExtensionCatalog ref_Semver listed_MapRange
    (SimNet.env SimNet.sample_world) SimNet.Background "http://registry/missing"
  = Returns (None, Some (fmt_Errorf_w_s errFetchExtensionCatalog "404 Not Found")) ∧
  (None : option (gmap string extension)) = None ∧
  (@http_NewRequestWithContext (SimNet.env SimNet.sample_world)
     SimNet.Background http_MethodGet "http://registry/missing"
   = inl (fmt_Errorf_w_s errFetchExtensionCatalog "404 Not Found") ∨
   ∃ req,
     @http_NewRequestWithContext (SimNet.env SimNet.sample_world)
       SimNet.Background http_MethodGet "http://registry/missing" = inr req ∧
     (@Client_Do (SimNet.env SimNet.sample_world)
        {| Timeout := httpRequestTimeout |}
        (Header_Set "User-Agent" "xk6-subcommand-explore" req)
      = inl (fmt_Errorf_w_s errFetchExtensionCatalog "404 Not Found") ∨
      ∃ resp,
        @Client_Do (SimNet.env SimNet.sample_world)
          {| Timeout := httpRequestTimeout |}
          (Header_Set "User-Agent" "xk6-subcommand-explore" req) = inr resp ∧
        ((StatusCode resp ≠ http_StatusOK ∧
          fmt_Errorf_w_s errFetchExtensionCatalog "404 Not Found"
          = fmt_Errorf_w_s errFetchExtensionCatalog (Status resp)) ∨
         (StatusCode resp = http_StatusOK ∧
          @json_Decode (SimNet.env SimNet.sample_world) (Body resp)
          = inl (fmt_Errorf_w_s errFetchExtensionCatalog "404 Not Found"))))).
Proof.
  split; [reflexivity|].
  apply (@getExtensionCatalog_error_sources ref_Semver listed_MapRange
           (SimNet.env SimNet.sample_world) SimNet.Background
           "http://registry/missing" None).
  reflexivity.
Defined.

Lemma getExtensionCatalog_panics_iff_witness :
  @getExtensionCatalog ref_Semver listed_MapRange (SimNet.env null_world)
    SimNet.Background "http://registry/null-entry" = Panics ↔
  ∃ key, null_entry_catalog !! key = Some None.
Proof.
  apply (@getExtensionCatalog_panics_iff ref_Semver listed_MapRange
           (SimNet.env null_world) listed_MapRangeLaws
           SimNet.Background "http://registry/null-entry"
           (mkRequest SimNet.Background "GET" "http://registry/null-entry" ∅)
           (mkResponse 200 "200 OK" "null-entry") null_entry_catalog);
    reflexivity.
Defined.

Example getExtensionCatalog_null_entry :
  @getExtensionCatalog ref_Semver listed_MapRange (SimNet.env null_world)
    SimNet.Background "http://registry/null-entry" = Panics.
Proof. vm_compute. reflexivity. Qed.

Example getExtensionCatalog_null_body :
  @getExtensionCatalog ref_Semver listed_MapRange (SimNet.env null_world)
    SimNet.Background "http://registry/null" = Returns (None, None).
Proof. reflexivity. Qed.

Lemma fetched_filtered_latest_witness :
  ∃ catalog,
    @getExtensionCatalog ref_Semver listed_MapRange
      (SimNet.env SimNet.sample_world) SimNet.Background
      "http://registry/catalog.json" = Returns (Some catalog, None) ∧
    Forall (λ ext, Latest ext = @findLatest ref_Semver (Versions ext) ∧
                   (Latest ext = "" ∨ Latest ext ∈ Versions ext))
           (@filterExtensions listed_MapRange catalog "" "").
Proof.
  eexists. split; [vm_compute; reflexivity|].
  apply (@fetched_filtered_latest ref_Semver listed_MapRange
           (SimNet.env SimNet.sample_world) listed_MapRangeLaws ref_SemverLaws
           SimNet.Background "http://registry/catalog.json").
  vm_compute. reflexivity.
Defined.

(** ** output.go: labels, terminal width and the table *)

Lemma len_app (a b : string) : len (a +:+ b) = (len a + len b)%Z.
Proof.
  unfold len. rewrite <-Nat2Z.inj_add. f_equal.
  induction a as [|c a IH]; [done|].
  change (S (String.length (a +:+ b)) = S (String.length a + String.length b)).
  by rewrite IH.
Qed.

Lemma substring_0_length (n : nat) (s : string) :
  (n ≤ String.length s)%nat → String.length (String.substring 0 n s) = n.
Proof.
  revert s. induction n as [|n IH]; intros [|c s] Hn; simpl in *; try done.
  - lia.
  - rewrite IH; [done|lia].
Qed.

Lemma substring_0_prefix (n : nat) (s : string) :
  (n ≤ String.length s)%nat → String.prefix (String.substring 0 n s) s = true.
Proof.
  intros Hn. apply String.prefix_correct. by rewrite substring_0_length.
Qed.

Lemma abbrev_labels_eq (e : extension) :
  abbrev (extensionType e) = Part001.extensionType e ∧
  abbrev (extensionTier e) = Part001.extensionTier e.
Proof.
  unfold extensionType, Part001.extensionType, extensionTier,
    Part001.extensionTier.
  destruct (bool_decide (0 < length (Imports e)));
    destruct (bool_decide (0 < length (Outputs e)));
    destruct (bool_decide (0 < length (Subcommands e)));
    destruct (Tier e =? "official"); done.
Qed.

(** X20. The labels written into the table are those of the earlier revision,
    which are the ones the tests expect, and each is at most three bytes
    long, inside the four that the width computation reserves for its
    column. *)
Theorem abbrev_labels (e : extension) :
  abbrev (extensionType e) = Part001.extensionType e ∧
  abbrev (extensionTier e) = Part001.extensionTier e ∧
  (len (abbrev (extensionType e)) < typeColWidth)%Z ∧
  (len (abbrev (extensionTier e)) < tierColWidth)%Z.
Proof.
  unfold extensionType, Part001.extensionType, extensionTier,
    Part001.extensionTier.
  destruct (bool_decide (0 < length (Imports e)));
    destruct (bool_decide (0 < length (Outputs e)));
    destruct (bool_decide (0 < length (Subcommands e)));
    destruct (Tier e =? "official"); done.
Qed.

(** X21. The width is always positive: it is the default of 120 columns, or
    the width the terminal reports without error when standard output is
    one. *)
Theorem getTerminalWidth_positive `{T : TermEnv} (stdout : Stdout) :
  (0 < getTerminalWidth stdout)%Z ∧
  (getTerminalWidth stdout = defaultTerminalWidth ∨
   (IsTTY stdout = true ∧ term_IsTerminal (RawOutFd stdout) = true ∧
    ∃ height, term_GetSize (RawOutFd stdout)
              = (getTerminalWidth stdout, height, None))).
Proof.
  unfold getTerminalWidth.
  destruct (IsTTY stdout); simpl; [|split; [done|by left]].
  destruct (term_IsTerminal (RawOutFd stdout)); simpl; [|split; [done|by left]].
  destruct (term_GetSize (RawOutFd stdout)) as [[width height] err].
  case_bool_decide as Herr; simpl; [|split; [done|by left]].
  destruct (Z.ltb_spec 0 width); [|split; [done|by left]].
  split; [done|]. right. repeat split. exists height. by rewrite Herr.
Qed.

Lemma outputTable_otherLen_le (brief : bool) (extensions : list extension)
    (ext : extension) :
  ext ∈ extensions →
  (outputTable_otherLen brief ext
   + (if brief then briefPaddings else normalPaddings)
   ≤ outputTable_otherCols extensions brief)%Z.
Proof.
  intros Hin. unfold outputTable_otherCols.
  set (step := λ (otherCols : Z) (ext : extension),
         let otherLen := outputTable_otherLen brief ext in
         if (otherCols <? otherLen)%Z then otherLen else otherCols).
  assert (∀ l acc,
    (acc ≤ foldl step acc l)%Z ∧
    (ext ∈ l → (outputTable_otherLen brief ext ≤ foldl step acc l)%Z)) as Hmax.
  { induction l as [|x l IH]; intros acc; cbn [foldl].
    - split; [lia|]. intros []%elem_of_nil.
    - destruct (IH (step acc x)) as [Hle Hm].
      assert (acc ≤ step acc x ∧ outputTable_otherLen brief x ≤ step acc x)%Z
        as [? ?].
      { unfold step. cbv zeta.
        destruct (Z.ltb_spec acc (outputTable_otherLen brief x)); lia. }
      split; [lia|]. intros [->|?]%elem_of_cons; [lia|auto]. }
  destruct (Hmax extensions 0%Z) as [_ Hm]. specialize (Hm Hin).
  destruct brief; lia.
Qed.

(** What the table writes for a description, when the width is at least
    [minDescWidth]: the slice is in range, and the text is the description
    itself when truncation is off or it fits, and otherwise its first
    [descWidth - 3] bytes followed by three dots, [descWidth] bytes in
    all. *)
Lemma outputTable_desc_Returns (descWidth : Z) (notrunc : bool) (desc : string) :
  (minDescWidth ≤ descWidth)%Z →
  ∃ written,
    outputTable_desc descWidth notrunc desc = Returns written ∧
    ((written = desc ∧ (notrunc = true ∨ (len desc ≤ descWidth)%Z)) ∨
     (notrunc = false ∧ (descWidth < len desc)%Z ∧ len written = descWidth ∧
      ∃ head, written = head +:+ dots ∧ String.prefix head desc = true)).
Proof.
  intros Hmin. unfold outputTable_desc, minDescWidth in *.
  destruct notrunc; simpl.
  { exists desc. split; [done|]. left. auto. }
  destruct (Z.ltb_spec descWidth (len desc)) as [Hlong|Hfits].
  - unfold string_slice_to, dotsLen. change (len dots) with 3%Z.
    destruct (Z.leb_spec 0 (descWidth - 3)); [|lia].
    destruct (Z.leb_spec (descWidth - 3) (len desc)); [|lia].
    simpl. eexists. split; [done|]. right.
    assert (Z.to_nat (descWidth - 3) ≤ String.length desc)%nat as Hn
      by (unfold len in *; lia).
    split; [done|]. split; [done|]. split.
    + rewrite len_app. unfold len at 1. rewrite substring_0_length by done.
      change (len dots) with 3%Z. lia.
    + eexists. split; [done|]. by apply substring_0_prefix.
  - exists desc. split; [done|]. left. auto.
Qed.

Lemma outputTable_loop_Returns {Q : extension → string → Prop}
    (row : extension → outcome string) (extensions : list extension)
    (lines : list string) :
  (∀ ext, ext ∈ extensions → ∃ r, row ext = Returns r ∧ Q ext r) →
  ∃ rows,
    foldl (λ written ext, lines ← written; r ← row ext; mret (lines ++ [r]))
          (Returns lines) extensions
    = Returns (lines ++ rows) ∧
    Forall2 Q extensions rows.
Proof.
  revert lines.
  induction extensions as [|ext extensions IH]; intros lines Hrow.
  - exists []. rewrite app_nil_r. split; [done|constructor].
  - destruct (Hrow ext) as (r & Hr & HQ); [by left|].
    destruct (IH (lines ++ [r])) as (rows & Hrun & Hrows).
    { intros e He. apply Hrow. by right. }
    exists (r :: rows). split; [|by constructor].
    cbn [foldl]. simpl. rewrite Hr. simpl.
    rewrite <-app_assoc in Hrun. exact Hrun.
Qed.

Lemma outputTable_Returns_rows `{T : TermEnv} (stdout : Stdout)
    (extensions : list extension) (brief notrunc : bool) :
  ∃ rows,
    outputTable stdout extensions brief notrunc
    = Returns ((if brief then briefHeader else normalHeader) :: rows) ∧
    length rows = length extensions.
Proof.
  unfold outputTable.
  destruct (outputTable_loop_Returns (Q := λ _ _, True)
              (outputTable_row
                 (outputTable_descWidth (getTerminalWidth stdout) extensions brief)
                 brief notrunc)
              extensions [if brief then briefHeader else normalHeader])
    as (rows & Hrun & Hrows).
  - intros ext _. unfold outputTable_row.
    destruct (outputTable_desc_Returns
                (outputTable_descWidth (getTerminalWidth stdout) extensions brief)
                notrunc (Description ext)) as (d & -> & _).
    { unfold outputTable_descWidth. lia. }
    simpl. destruct brief; eauto.
  - exists rows. split; [exact Hrun|].
    symmetry. by eapply Forall2_length.
Qed.

(** X22. The table never panics, whatever the terminal reports: a header is
    written, then one row for each descriptor. *)
Theorem outputTable_header_and_rows `{T : TermEnv} (stdout : Stdout)
    (extensions : list extension) (brief notrunc : bool) :
  ∃ rows,
    outputTable stdout extensions brief notrunc
    = Returns ((if brief then briefHeader else normalHeader) :: rows) ∧
    length rows = length extensions.
Proof. apply outputTable_Returns_rows. Qed.

(** X23. With truncation on, every row holds the module, the version, the two
    labels and the description as cut by [outputTable_desc_Returns]; the
    widths the code counts for the row (the columns before the
    description, the paddings, the description as written) add up to at
    most the terminal width, or to the widest of these columns plus
    [minDescWidth] when the terminal is narrower than that. *)
Theorem outputTable_rows_fit `{T : TermEnv} (stdout : Stdout)
    (extensions : list extension) (brief : bool) :
  ∃ rows,
    outputTable stdout extensions brief false
    = Returns ((if brief then briefHeader else normalHeader) :: rows) ∧
    Forall2
      (λ ext row,
         ∃ desc,
           row = (if brief
                  then Module_ ext +:+ tab +:+ desc +:+ newline
                  else Module_ ext +:+ tab +:+ Latest ext +:+ tab
                       +:+ abbrev (extensionType ext) +:+ tab
                       +:+ abbrev (extensionTier ext) +:+ tab
                       +:+ desc +:+ newline) ∧
           (desc = Description ext ∨
            ∃ head, desc = head +:+ dots ∧
                    String.prefix head (Description ext) = true) ∧
           (outputTable_otherLen brief ext
            + (if brief then briefPaddings else normalPaddings) + len desc
            ≤ Z.max (getTerminalWidth stdout)
                    (outputTable_otherCols extensions brief + minDescWidth))%Z)
      extensions rows.
Proof.
  unfold outputTable.
  set (descWidth :=
         outputTable_descWidth (getTerminalWidth stdout) extensions brief).
  apply (outputTable_loop_Returns (outputTable_row descWidth brief false)
           extensions [if brief then briefHeader else normalHeader]).
  intros ext Hext. unfold outputTable_row.
  destruct (outputTable_desc_Returns descWidth false (Description ext))
    as (d & -> & Hd).
  { unfold descWidth, outputTable_descWidth. lia. }
  pose proof (outputTable_otherLen_le brief extensions ext Hext) as Hle.
  assert (len d ≤ descWidth)%Z as Hlen.
  { destruct Hd as [[-> [[=]|?]]|(_ & _ & -> & _)]; [done|lia]. }
  assert (d = Description ext ∨
          ∃ head, d = head +:+ dots ∧
                  String.prefix head (Description ext) = true) as Hcut.
  { destruct Hd as [[-> _]|(_ & _ & _ & Hhead)]; [by left|by right]. }
  unfold descWidth, outputTable_descWidth in Hlen.
  destruct brief; (eexists; split; [reflexivity|]); exists d;
    (split; [reflexivity|]); (split; [exact Hcut|]); lia.
Qed.

(** X24. With truncation off, every description is written in full. *)
Theorem outputTable_notrunc_full `{T : TermEnv} (stdout : Stdout)
    (extensions : list extension) (brief : bool) :
  outputTable stdout extensions brief true
  = Returns
      ((if brief then briefHeader else normalHeader) ::
       ((λ ext,
           if brief
           then Module_ ext +:+ tab +:+ Description ext +:+ newline
           else Module_ ext +:+ tab +:+ Latest ext +:+ tab
                +:+ abbrev (extensionType ext) +:+ tab
                +:+ abbrev (extensionTier ext) +:+ tab
                +:+ Description ext +:+ newline) <$> extensions)).
Proof.
  unfold outputTable.
  generalize (outputTable_descWidth (getTerminalWidth stdout) extensions brief).
  intros descWidth.
  set (full := λ ext : extension,
         if brief
         then Module_ ext +:+ tab +:+ Description ext +:+ newline
         else Module_ ext +:+ tab +:+ Latest ext +:+ tab
              +:+ abbrev (extensionType ext) +:+ tab
              +:+ abbrev (extensionTier ext) +:+ tab
              +:+ Description ext +:+ newline).
  assert (∀ ext, outputTable_row descWidth brief true ext = Returns (full ext))
    as Hrow by (intros ext; unfold full; by destruct brief).
  assert (∀ lines,
    foldl (λ written ext,
             lines ← written;
             row ← outputTable_row descWidth brief true ext;
             mret (lines ++ [row]))
          (Returns lines) extensions
    = Returns (lines ++ (full <$> extensions))) as Hloop.
  { induction extensions as [|ext extensions IH]; intros lines.
    - simpl. by rewrite app_nil_r.
    - cbn [foldl]. rewrite fmap_cons.
      replace (lines ++ full ext :: (full <$> extensions))
        with ((lines ++ [full ext]) ++ (full <$> extensions))
        by (by rewrite <-app_assoc).
      rewrite <-IH. f_equal. simpl. by rewrite Hrow. }
  apply (Hloop [if brief then briefHeader else normalHeader]).
Qed.

Lemma outputTable_Part001_eq `{T : TermEnv} (stdout : Stdout)
    (extensions : list extension) (brief : bool) :
  outputTable stdout extensions brief false
  = Part001.outputTable stdout extensions brief.
Proof.
  unfold outputTable, Part001.outputTable.
  generalize (outputTable_descWidth (getTerminalWidth stdout) extensions brief).
  intros descWidth.
  generalize (Returns (A := list string)
                [if brief then briefHeader else normalHeader]).
  induction extensions as [|ext extensions IH]; intros written; [done|].
  cbn [foldl]. rewrite IH. f_equal.
  destruct written as [lines|]; [|done]. simpl.
  assert (outputTable_row descWidth brief false ext
          = Part001.outputTable_row descWidth brief ext) as ->; [|done].
  unfold outputTable_row, Part001.outputTable_row, outputTable_desc.
  destruct (abbrev_labels_eq ext) as [-> ->]. done.
Qed.

(** X25. The table of this revision, with truncation on, writes what the
    table of the earlier revision writes. *)
Theorem outputTable_agrees_with_Part001 `{T : TermEnv} (stdout : Stdout)
    (extensions : list extension) (brief : bool) :
  outputTable stdout extensions brief false
  = Part001.outputTable stdout extensions brief.
Proof. apply outputTable_Part001_eq. Qed.

(** ** cmd.go: empty results and short lists *)

(** X9. The result is empty exactly when no entry of the catalog is kept: in
    particular for the empty catalog, and for a catalog that holds the
    entry of k6 only. *)
Theorem filterExtensions_empty_iff `{R : MapRange} {L : MapRangeLaws R}
    (catalog : gmap string extension) (k : kind) (t : tier) :
  filterExtensions catalog k t = [] ↔
  ∀ key ext, catalog !! key = Some ext → filterExtensions_keeps k t ext = false.
Proof.
  split.
  - intros Hnil key ext Hkey.
    destruct (filterExtensions_keeps k t ext) eqn:Hkeep; [|done].
    assert (ext ∈ filterExtensions catalog k t) as Hin.
    { apply elem_of_filterExtensions.
      unfold filterExtensions_keeps in Hkeep.
      apply andb_true_iff in Hkeep as [Hself [Hk Ht]%andb_true_iff].
      apply negb_true_iff, String.eqb_neq in Hself.
      split; [by exists key|done]. }
    rewrite Hnil in Hin. by apply elem_of_nil in Hin.
  - intros Hnone.
    destruct (filterExtensions catalog k t) as [|ext l] eqn:Hl; [done|].
    assert (ext ∈ filterExtensions catalog k t) as Hin by (rewrite Hl; left).
    apply elem_of_filterExtensions in Hin as ([key Hkey] & Hself & Hk & Ht).
    specialize (Hnone key ext Hkey). unfold filterExtensions_keeps in Hnone.
    apply String.eqb_neq in Hself. rewrite Hself, Hk, Ht in Hnone. done.
Qed.

Lemma filterExtensions_empty_iff_witness :
  @filterExtensions listed_MapRange {["k6" := Sample.k6]} "" "" = [] ↔
  ∀ key ext, ({["k6" := Sample.k6]} : gmap string extension) !! key = Some ext →
             filterExtensions_keeps "" "" ext = false.
Proof.
  apply (@filterExtensions_empty_iff listed_MapRange listed_MapRangeLaws).
Defined.

(** X13. A list of at most one descriptor is returned as it is, by every sort
    that only rearranges. *)
Theorem sortExtensions_short `{S : SortSlice} {L : SortSliceLaws S}
    (extensions : list extension) :
  (length extensions ≤ 1)%nat → sortExtensions extensions = extensions.
Proof.
  intros Hlen. pose proof (sort_Slice_perm _ sortExtensions_less extensions) as Hp.
  unfold sortExtensions.
  destruct extensions as [|e [|e' l]]; simpl in Hlen; [| |lia].
  - by apply Permutation_nil_r in Hp.
  - by apply Permutation_singleton_r in Hp.
Qed.

Lemma sortExtensions_short_witness :
  (length [Sample.faker] ≤ 1)%nat ∧
  @sortExtensions insertion_SortSlice [Sample.faker] = [Sample.faker].
Proof.
  split; [simpl; lia|].
  apply (@sortExtensions_short insertion_SortSlice insertion_SortSliceLaws).
  simpl. lia.
Defined.

(** ** cmd.go: run *)

Section Run.
Context `{S : Semver} `{R : MapRange} {L : MapRangeLaws R} `{N : NetEnv}
        `{T : TermEnv} `{O : OutputEnv}.

(** X26. What [run] does with the result of the fetch. On an error nothing is
    handed over for output and the error is returned as it is. Otherwise
    the descriptors handed over are the entries of the catalog that are
    kept by the filters of the options, each once; in JSON mode they go
    to the encoder, in table mode the tabwriter receives the header and
    one row for each. *)
Theorem run_output (opts : options)
    (catalog : option (gmap string extension)) (err : option error) :
  getDefaultExtensionCatalog (opts_gs_Ctx opts) = Returns (catalog, err) →
  match err with
  | Some e => run opts = Returns ([], Some e)
  | None =>
      ∃ extensions,
        extensions
          ≡ₚ filter (λ e, filterExtensions_keeps (opts_kind opts)
                            (opts_tier opts) e = true)
               (map_to_list (default ∅ catalog)).*2 ∧
        if opts_json opts
        then run opts = Returns ([encoded extensions], Encoder_Encode extensions)
        else ∃ rows,
               let lines :=
                 (if opts_brief opts then briefHeader else normalHeader) :: rows in
               run opts = Returns ([tabulated lines], Writer_Flush lines) ∧
               length rows = length extensions
  end.
Proof.
  intros Hfetch. unfold run. rewrite Hfetch. simpl.
  destruct err as [e|]; [done|].
  exists (filterExtensions (default ∅ catalog) (opts_kind opts) (opts_tier opts)).
  split.
  { rewrite filterExtensions_filter. by rewrite (map_range_perm _ _). }
  destruct (opts_json opts); [done|].
  destruct (outputTable_Returns_rows (opts_gs_Stdout opts)
              (filterExtensions (default ∅ catalog) (opts_kind opts)
                 (opts_tier opts))
              (opts_brief opts) false) as (rows & Hrows & Hlen).
  rewrite outputTable_Part001_eq in Hrows.
  exists rows. simpl. rewrite Hrows. done.
Qed.

(** X27. [run] adds no panic of its own: it panics exactly when the fetch
    does. *)
Theorem run_panics_iff (opts : options) :
  run opts = Panics ↔ getDefaultExtensionCatalog (opts_gs_Ctx opts) = Panics.
Proof.
  unfold run.
  destruct (getDefaultExtensionCatalog (opts_gs_Ctx opts))
    as [[catalog [e|]]|]; simpl; [done| |done].
  destruct (opts_json opts); [done|].
  destruct (outputTable_Returns_rows (opts_gs_Stdout opts)
              (filterExtensions (default ∅ catalog) (opts_kind opts)
                 (opts_tier opts))
              (opts_brief opts) false) as (rows & Hrows & _).
  rewrite outputTable_Part001_eq in Hrows. rewrite Hrows. done.
Qed.

End Run.

Lemma run_output_witness :
  ∃ catalog,
    @getDefaultExtensionCatalog ref_Semver listed_MapRange
      (SimNet.env registry_world) SimNet.Background
    = Returns (Some catalog, None) ∧
    ∃ extensions,
      extensions
        ≡ₚ filter (λ e, filterExtensions_keeps "" "" e = true)
             (map_to_list catalog).*2 ∧
      ∃ rows,
        @run ref_Semver listed_MapRange (SimNet.env registry_world)
          no_terminal quiet_OutputEnv
          (@mkOptions (SimNet.env registry_world) false false "" ""
             SimNet.Background (mkStdout false 1))
        = Returns ([tabulated (normalHeader :: rows)], None) ∧
        length rows = length extensions.
Proof.
  eexists. split; [vm_compute; reflexivity|].
  apply (@run_output ref_Semver listed_MapRange listed_MapRangeLaws
           (SimNet.env registry_world) no_terminal quiet_OutputEnv
           (@mkOptions (SimNet.env registry_world) false false "" ""
              SimNet.Background (mkStdout false 1))
           (Some _) None).
  vm_compute. reflexivity.
Defined.
